(** * Shot planning of the Lingongrova bubble-shooter bot

    A shallow embedding of [bot/aiming/aiming_system.py] (class
    [AimingSystem]) and of the data classes [Bubble] and [GameState] of
    [bot/detection/game_detector.py].

    Numbers.  A Python [int] is a [Z].  A Python [float] is a real number
    [R]: the arithmetic of the embedding is exact, the rounding of IEEE
    doubles is not modelled.  An [int] that meets a [float] is injected
    with [IZR], as Python promotes it.  [math.sin], [math.cos],
    [math.sqrt] and [math.pi] are the functions and the constant of the
    Standard Library's real analysis; [math.atan2], [math.radians] and the
    builtin [int] are defined below from them.

    Control.  A [for] loop with an accumulator is a [fold_left]; the
    [while] loop of the simulator is a fuelled iteration of its body
    ([sim_loop]), and the function itself runs it with as much fuel as the
    loop can use. *)

From Stdlib Require Import Reals ZArith List Bool Lia Lra Permutation Sorted.
Import ListNotations.

Open Scope R_scope.

(** ** Data model ([game_detector.py]) *)

(** [@dataclass class Bubble]: the generated [__eq__] compares the five
    fields, in order. *)
Record Bubble : Type := mkBubble {
  x : Z;
  y : Z;
  radius : Z;
  hit_count : Z;
  color : Z * Z * Z
}.

(** [@dataclass class GameState]; [game_area] is (x, y, width, height). *)
Record GameState : Type := mkGameState {
  bubbles : list Bubble;
  shooter_position : Z * Z;
  bullets : list (Z * Z);
  game_area : Z * Z * Z * Z
}.

Definition color_eqb (c d : Z * Z * Z) : bool :=
  let '(c1, c2, c3) := c in
  let '(d1, d2, d3) := d in
  ((c1 =? d1) && (c2 =? d2) && (c3 =? d3))%Z.

(** [a == b] on bubbles. *)
Definition Bubble_eqb (a b : Bubble) : bool :=
  ((x a =? x b) && (y a =? y b) && (radius a =? radius b)
   && (hit_count a =? hit_count b))%Z && color_eqb (color a) (color b).

(** ** Numbers *)

Definition Rleb (a b : R) : bool := if Rle_dec a b then true else false.
Definition Rltb (a b : R) : bool := if Rlt_dec a b then true else false.

(** The builtin [int] on a float: truncation towards zero. *)
Definition int (r : R) : Z := if Rle_dec 0 r then Zfloor r else Zceil r.

(** [math.atan2 (y, x)], the angle of the point [(x, y)] in (-pi, pi]. *)
Definition atan2 (y x : R) : R :=
  if Rlt_dec 0 x then atan (y / x)
  else if Rlt_dec x 0 then
    (if Rle_dec 0 y then atan (y / x) + PI else atan (y / x) - PI)
  else if Rlt_dec 0 y then PI / 2
  else if Rlt_dec y 0 then - (PI / 2)
  else 0.

(** [math.radians]. *)
Definition radians (deg : R) : R := deg * (PI / 180).

(** [range (start, stop, step)] for a positive [step]. *)
Definition range (start stop step : Z) : list Z :=
  map (fun k => (start + step * Z.of_nat k)%Z)
      (seq 0 (Z.to_nat ((stop - start + step - 1) / step))).

(** ** [sorted] with a key

    [sorted] is stable, and a list has one stable sorting; insertion from
    the right, stopping at the first element whose key is not smaller,
    computes it.  [ltb] is [<] on the keys. *)
Section Sorted.
Context {A K : Type} (ltb : K -> K -> bool) (key : A -> K).

Fixpoint insert (a : A) (l : list A) : list A :=
  match l with
  | [] => [a]
  | b :: l' => if ltb (key b) (key a) then b :: insert a l' else a :: b :: l'
  end.

Definition sorted (l : list A) : list A := fold_right insert [] l.
End Sorted.

(** [<] on a pair of ints, as Python compares tuples. *)
Definition tuple_ltb (k1 k2 : Z * Z) : bool :=
  ((fst k1 <? fst k2) || ((fst k1 =? fst k2) && (snd k1 <? snd k2)))%Z.

(** ** [AimingSystem] *)

(** The attributes set by [__init__]; nothing assigns them afterwards. *)
Definition gravity : R := 9.81.
Definition bullet_speed : R := 500.
Definition bounce_damping : R := 0.8.
Definition max_bounces : Z := 3.

(** The key of the prioritisation, [lambda b: (b.hit_count, -b.y)]. *)
Definition priority_key (b : Bubble) : Z * Z := (hit_count b, (- y b)%Z).

Definition sorted_bubbles (bs : list Bubble) : list Bubble :=
  sorted tuple_ltb priority_key bs.

Definition _calculate_direct_shot (shooter_pos : Z * Z) (target : Bubble)
  : option R :=
  let '(sx, sy) := shooter_pos in
  let tx := x target in
  let ty := y target in
  let dx := (tx - sx)%Z in
  let dy := (ty - sy)%Z in
  if (dy >=? 0)%Z then None
  else
    let angle := atan2 (IZR dx) (IZR (- dy)) in
    if Rltb (PI / 2) (Rabs angle) then None
    else Some angle.

(** *** The simulator *)

(** The local variables of [_simulate_trajectory] that the loop updates. *)
Record Sim : Type := mkSim {
  pos_x : R;
  pos_y : R;
  vel_x : R;
  vel_y : R;
  trajectory : list (Z * Z);
  bounces : Z
}.

(** How one run of the loop body ends, and how the loop ends. *)
Inductive Exit : Type :=
| LoopCondition   (* the [while] condition is false *)
| BelowArea       (* break: [y >= y_max] *)
| CloseToTarget   (* break: within the target's radius on both axes *)
| TooLong.        (* break: [len(trajectory) > 1000] *)

Definition dt : R := 0.016.

Definition point_cap : nat := 1000.

(** One run of the loop body: the state it leaves, and [Some] break or
    [None] when control returns to the loop condition. *)
Definition sim_body (game_area : Z * Z * Z * Z) (target : Bubble) (s : Sim)
  : Sim * option Exit :=
  let '(x_min, y_min, width, height) := game_area in
  let x_max := (x_min + width)%Z in
  let y_max := (y_min + height)%Z in
  let x1 := pos_x s + vel_x s * dt in
  let y1 := pos_y s + vel_y s * dt in
  let vy1 := vel_y s + gravity * dt in
  let bounced := Rleb x1 (IZR x_min) || Rleb (IZR x_max) x1 in
  let vx1 := if bounced then - vel_x s * bounce_damping else vel_x s in
  let x2 := if bounced then Rmax (IZR x_min) (Rmin (IZR x_max) x1) else x1 in
  let bounces1 := if bounced then (bounces s + 1)%Z else bounces s in
  if Rleb (IZR y_max) y1 then
    (mkSim x2 y1 vx1 vy1 (trajectory s) bounces1, Some BelowArea)
  else
    let trajectory1 := trajectory s ++ [(int x2, int y1)] in
    let s1 := mkSim x2 y1 vx1 vy1 trajectory1 bounces1 in
    if Rltb (Rabs (x2 - IZR (x target))) (IZR (radius target))
       && Rltb (Rabs (y1 - IZR (y target))) (IZR (radius target))
    then (s1, Some CloseToTarget)
    else if (point_cap <? length trajectory1)%nat then (s1, Some TooLong)
    else (s1, None).

(** [while bounces <= self.max_bounces and y > y_min]. *)
Definition sim_cond (game_area : Z * Z * Z * Z) (s : Sim) : bool :=
  let '(_, y_min, _, _) := game_area in
  (bounces s <=? max_bounces)%Z && Rltb (IZR y_min) (pos_y s).

(** The loop: [None] when the fuel does not suffice. *)
Fixpoint sim_loop (fuel : nat) (game_area : Z * Z * Z * Z) (target : Bubble)
  (s : Sim) : option (Sim * Exit) :=
  if sim_cond game_area s then
    match fuel with
    | O => None
    | S fuel' =>
        match sim_body game_area target s with
        | (s', Some e) => Some (s', e)
        | (s', None) => sim_loop fuel' game_area target s'
        end
    end
  else Some (s, LoopCondition).

(** The state before the loop. *)
Definition sim_init (start_pos : Z * Z) (angle : R) : Sim :=
  let '(x0, y0) := start_pos in
  let vx := bullet_speed * sin angle in
  let vy := - bullet_speed * cos angle in
  mkSim (IZR x0) (IZR y0) vx vy [(x0, y0)] 0.

(** [return trajectory if len(trajectory) > 1 else None].  The loop is
    run with fuel that suffices ([sim_loop_enough]): its result is never
    [None]. *)
Definition sim_result (r : option (Sim * Exit)) : option (list (Z * Z)) :=
  match r with
  | Some (s, _) =>
      if (1 <? length (trajectory s))%nat then Some (trajectory s) else None
  | None => None
  end.

Definition _simulate_trajectory (start_pos : Z * Z) (angle : R)
  (game_area : Z * Z * Z * Z) (target : Bubble) : option (list (Z * Z)) :=
  sim_result (sim_loop point_cap game_area target (sim_init start_pos angle)).

Fixpoint _trajectory_hits_target (trajectory : list (Z * Z)) (target : Bubble)
  : bool :=
  match trajectory with
  | [] => false
  | (px, py) :: rest =>
      let distance :=
        sqrt (IZR ((px - x target) ^ 2 + (py - y target) ^ 2)) in
      if Rleb distance (IZR (radius target)) then true
      else _trajectory_hits_target rest target
  end.

Definition _calculate_bounced_shots (game_state : GameState) (target : Bubble)
  : list (R * nat) :=
  fold_left
    (fun bounced_shots angle_deg =>
       let angle := radians (IZR angle_deg) in
       match _simulate_trajectory (shooter_position game_state) angle
               (game_area game_state) target with
       | Some trajectory =>
           if negb (length trajectory =? 0)%nat
              && _trajectory_hits_target trajectory target
           then bounced_shots ++ [(angle, length trajectory)]
           else bounced_shots
       | None => bounced_shots
       end)
    (range (-80) 81 5) [].

(** *** Scoring *)

Definition _calculate_chain_potential (target : Bubble)
  (all_bubbles : list Bubble) : Z :=
  fold_left
    (fun chain_count bubble =>
       if negb (Bubble_eqb bubble target) then
         let distance :=
           sqrt (IZR ((x bubble - x target) ^ 2 + (y bubble - y target) ^ 2)) in
         if Rltb distance (IZR (radius target + radius bubble) * 1.5)
         then (chain_count + 1)%Z
         else chain_count
       else chain_count)
    all_bubbles 0%Z.

(** [max(bubble.y for bubble in all_bubbles) if all_bubbles else target.y]. *)
Definition max_y_of (target : Bubble) (all_bubbles : list Bubble) : Z :=
  match all_bubbles with
  | [] => y target
  | b :: bs => fold_left Z.max (map y bs) (y b)
  end.

Definition height_factor (target : Bubble) (all_bubbles : list Bubble) : R :=
  let max_y := max_y_of target all_bubbles in
  if (0 <? max_y)%Z then IZR (max_y - y target) / IZR max_y else 0.

(** The sum that [_evaluate_shot] builds, from its four terms. *)
Definition score_of (hits : Z) (height : R) (direct : bool) (chain_bonus : Z)
  : R :=
  let score := 0 in
  let score := score + IZR ((10 - hits) * 10) in
  let score := score + height * 20 in
  let score := if direct then score + 15 else score in
  score + IZR (chain_bonus * 5).

Definition _evaluate_shot (target : Bubble) (all_bubbles : list Bubble)
  (direct : bool) : R :=
  score_of (hit_count target) (height_factor target all_bubbles) direct
           (_calculate_chain_potential target all_bubbles).

(** *** Selection *)

(** [if score > best_score: best_score = score; best_shot = (angle, bubble)] *)
Definition keep_better (best : option (R * Bubble) * R) (angle : R)
  (bubble : Bubble) (score : R) : option (R * Bubble) * R :=
  if Rltb (snd best) score then (Some (angle, bubble), score) else best.

(** The body of [for bubble in sorted_bubbles]. *)
Definition try_bubble (game_state : GameState)
  (best : option (R * Bubble) * R) (bubble : Bubble)
  : option (R * Bubble) * R :=
  let best :=
    match _calculate_direct_shot (shooter_position game_state) bubble with
    | Some angle =>
        keep_better best angle bubble
          (_evaluate_shot bubble (bubbles game_state) true)
    | None => best
    end in
  fold_left
    (fun best shot =>
       keep_better best (fst shot) bubble
         (_evaluate_shot bubble (bubbles game_state) false))
    (_calculate_bounced_shots game_state bubble) best.

Definition calculate_best_shot (game_state : GameState)
  : option (R * Bubble) :=
  match bubbles game_state with
  | [] => None
  | _ =>
      fst (fold_left (try_bubble game_state)
             (sorted_bubbles (bubbles game_state)) (None, -1))
  end.

Definition get_mouse_position_for_angle (shooter_pos : Z * Z) (angle : R)
  (distance : Z) : Z * Z :=
  let '(sx, sy) := shooter_pos in
  let target_x := IZR sx + IZR distance * sin angle in
  let target_y := IZR sy - IZR distance * cos angle in
  (int target_x, int target_y).

(** * Vocabulary of the statements *)

(** ** Prioritisation *)

(** The order the key of the prioritisation induces: [a] may stand before
    [b]. *)
Definition priority_le (a b : Bubble) : Prop :=
  (hit_count a < hit_count b \/ (hit_count a = hit_count b /\ y b <= y a))%Z.

(** The bubbles of key [k]. *)
Definition has_key (k : Z * Z) (b : Bubble) : bool :=
  ((hit_count b =? fst k) && (- y b =? snd k))%Z.

(** ** The play area *)

(** The walls, the ceiling and the floor. *)
Definition x_min (ga : Z * Z * Z * Z) : Z := let '(x0, _, _, _) := ga in x0.
Definition y_min (ga : Z * Z * Z * Z) : Z := let '(_, y0, _, _) := ga in y0.
Definition x_max (ga : Z * Z * Z * Z) : Z :=
  let '(x0, _, width, _) := ga in (x0 + width)%Z.
Definition y_max (ga : Z * Z * Z * Z) : Z :=
  let '(_, y0, _, height) := ga in (y0 + height)%Z.

(** A point of the play area, walls, ceiling and floor included. *)
Definition in_area (ga : Z * Z * Z * Z) (p : Z * Z) : Prop :=
  (x_min ga <= fst p <= x_max ga /\ y_min ga <= snd p <= y_max ga)%Z.

Definition within_walls (ga : Z * Z * Z * Z) (p : Z * Z) : Prop :=
  (x_min ga <= fst p <= x_max ga)%Z.

(** Strictly above the floor, and on or above it. *)
Definition above_floor (ga : Z * Z * Z * Z) (p : Z * Z) : Prop :=
  (snd p < y_max ga)%Z.

Definition not_below_floor (ga : Z * Z * Z * Z) (p : Z * Z) : Prop :=
  (snd p <= y_max ga)%Z.


(** ** Distances in integers *)

(** The hit test on one point of a trajectory, the comparison of the
    square root with the radius squared. *)
Definition hits_point (target : Bubble) (p : Z * Z) : bool :=
  ((0 <=? radius target)
   && ((fst p - x target) ^ 2 + (snd p - y target) ^ 2
       <=? radius target * radius target))%Z.

(** Centre-to-centre distance of two bubbles. *)
Definition distance (a b : Bubble) : R :=
  sqrt ((IZR (x a) - IZR (x b)) ^ 2 + (IZR (y a) - IZR (y b)) ^ 2).


(** The same as a test on integers. *)
Definition chain_neighbourb (target b : Bubble) : bool :=
  negb (Bubble_eqb b target)
  && ((0 <? radius target + radius b)
      && (4 * ((x b - x target) ^ 2 + (y b - y target) ^ 2)
          <? 9 * ((radius target + radius b) * (radius target + radius b))))%Z.

(** ** Candidates *)

(** The viable shots at one bubble, in the order the planner tries them:
    the direct shot, then the bounced ones; each with its target and its
    score. *)
Definition shots_at (gs : GameState) (b : Bubble) : list (R * Bubble * R) :=
  match _calculate_direct_shot (shooter_position gs) b with
  | Some angle => [(angle, b, _evaluate_shot b (bubbles gs) true)]
  | None => []
  end
  ++ map (fun shot => (fst shot, b, _evaluate_shot b (bubbles gs) false))
       (_calculate_bounced_shots gs b).

(** All viable shots of a snapshot, in prioritised order. *)
Definition candidates (gs : GameState) : list (R * Bubble * R) :=
  flat_map (shots_at gs) (sorted_bubbles (bubbles gs)).

(** One step of the running best over a list of scored shots. *)
Definition keep_shot (best : option (R * Bubble) * R) (c : R * Bubble * R)
  : option (R * Bubble) * R :=
  keep_better best (fst (fst c)) (snd (fst c)) (snd c).

(** No bubble of the snapshot has a direct shot or a bounced shot. *)
Definition no_viable_shot (gs : GameState) : Prop :=
  forall b, In b (bubbles gs) ->
    _calculate_direct_shot (shooter_position gs) b = None /\
    _calculate_bounced_shots gs b = [].

(** ** Inputs of the examples *)

(** Two bubbles with one hit each, the first higher on the screen. *)
Definition bubble_high : Bubble := mkBubble 300 100 20 1 (255, 0, 0)%Z.
Definition bubble_low : Bubble := mkBubble 300 200 20 1 (255, 0, 0)%Z.

(** The play area of [test_aiming]; a shot straight up along its left
    wall, the target far away; and the states of that run, the first
    before the loop. *)
Definition wall_area : Z * Z * Z * Z := (0, 0, 800, 600)%Z.
Definition wall_origin : Z * Z := (0, 500)%Z.
Definition far_target : Bubble := mkBubble 700 50 10 1 (255, 0, 0)%Z.

Definition wall_state (k : nat) : Sim :=
  match k with
  | 0%nat => mkSim 0 500 0 (-500) [(0, 500)%Z] 0
  | 1%nat => mkSim 0 492 0 (-499.84304) [(0, 500); (0, 492)]%Z 1
  | 2%nat =>
      mkSim 0 484.00251136 0 (-499.68608) [(0, 500); (0, 492); (0, 484)]%Z 2
  | 3%nat =>
      mkSim 0 476.00753408 0 (-499.52912)
        [(0, 500); (0, 492); (0, 484); (0, 476)]%Z 3
  | _ =>
      mkSim 0 468.01506816 0 (-499.37216)
        [(0, 500); (0, 492); (0, 484); (0, 476); (0, 468)]%Z 4
  end.

(** A play area above the line y = 0; a level shot to the right from one
    unit above its floor, the target two steps away; and the states of
    that run. *)
Definition high_area : Z * Z * Z * Z := (0, -600, 800, 600)%Z.
Definition high_origin : Z * Z := (400, -1)%Z.
Definition near_target : Bubble := mkBubble 416 (-1) 1 1 (255, 0, 0)%Z.

Definition high_state (k : nat) : Sim :=
  match k with
  | 0%nat => mkSim 400 (-1) 500 0 [(400, -1)%Z] 0
  | 1%nat => mkSim 408 (-1) 500 0.15696 [(400, -1); (408, -1)]%Z 0
  | _ =>
      mkSim 416 (-0.99748864) 500 0.31392
        [(400, -1); (408, -1); (416, 0)]%Z 0
  end.

(** The shooter on the floor of the play area of [test_aiming], the
    target one step above it. *)
Definition floor_origin : Z * Z := (400, 600)%Z.
Definition step_target : Bubble := mkBubble 400 592 5 1 (255, 0, 0)%Z.

(** Two boards with one highest bubble, at y = 100, and lowest bubbles at
    y = 400 and y = 200. *)
Definition top_bubble : Bubble := mkBubble 300 100 20 1 (255, 0, 0)%Z.
Definition board_deep : list Bubble :=
  [top_bubble; mkBubble 300 400 20 1 (255, 0, 0)%Z].
Definition board_shallow : list Bubble :=
  [top_bubble; mkBubble 300 200 20 1 (255, 0, 0)%Z].

(** A bubble with two hits left, the same with one hit left, and four
    more bubbles of that second value. *)
Definition tough : Bubble := mkBubble 300 200 20 2 (255, 0, 0)%Z.
Definition weak : Bubble := mkBubble 300 200 20 1 (255, 0, 0)%Z.
Definition crowd : list Bubble := [weak; weak; weak; weak].

(** The board and the snapshot of [test_aiming]; the first bubble of the
    board with one hit less, and the board with that bubble in its
    place. *)
Definition test_first : Bubble := mkBubble 200 150 25 2 (255, 0, 0)%Z.
Definition test_first_weaker : Bubble := mkBubble 200 150 25 1 (255, 0, 0)%Z.
Definition test_bubbles : list Bubble :=
  [test_first;
   mkBubble 300 200 20 1 (255, 0, 0)%Z;
   mkBubble 400 100 30 3 (255, 0, 0)%Z].
Definition test_bubbles_weaker : list Bubble :=
  [test_first_weaker;
   mkBubble 300 200 20 1 (255, 0, 0)%Z;
   mkBubble 400 100 30 3 (255, 0, 0)%Z].
Definition test_state : GameState :=
  mkGameState test_bubbles (400, 500)%Z [] (0, 0, 800, 600)%Z.


(** One bubble straight above the shooter, and a play area of no width
    and no height. *)
Definition lone : Bubble := mkBubble 400 100 30 3 (255, 0, 0)%Z.

(** * Vocabulary of the further properties *)

(** One list is the beginning of another. *)
Definition prefix_of {A : Type} (l l' : list A) : Prop :=
  exists rest, l' = l ++ rest.

(** What one angle of the sweep contributes to the bounced shots. *)
Definition sweep_shot (game_state : GameState) (target : Bubble)
  (angle_deg : Z) : list (R * nat) :=
  let angle := radians (IZR angle_deg) in
  match _simulate_trajectory (shooter_position game_state) angle
          (game_area game_state) target with
  | Some trajectory =>
      if negb (length trajectory =? 0)%nat
         && _trajectory_hits_target trajectory target
      then [(angle, length trajectory)]
      else []
  | None => []
  end.

(** The shooter on the ceiling of the play area of [test_aiming], one
    bubble below it. *)
Definition ceiling_state : GameState :=
  mkGameState [lone] (400, 0)%Z [] (0, 0, 800, 600)%Z.

(** The snapshot of [test_aiming] with one bubble, straight above the
    shooter. *)
Definition open_state : GameState :=
  mkGameState [lone] (400, 500)%Z [] (0, 0, 800, 600)%Z.

(** * [GameDetector] ([game_detector.py])

    The image operations of OpenCV are not modelled.  What they deliver
    enters the functions below as arguments: the shape of an image, the
    bounding rectangle of the largest contour, the measurements of a
    contour, the pixel counts of a thresholded region. *)

(** The attributes set by [__init__] that the arithmetic uses. *)
Definition min_bubble_radius : R := 15.
Definition max_bubble_radius : R := 40.


(** [_detect_shooter]: [shape] is [game_region.shape[:2]]; the pixels of
    the region are not read. *)
Definition _detect_shooter (shape : Z * Z) (offset_x offset_y : Z) : Z * Z :=
  let '(h, w) := shape in
  let shooter_x := (w / 2 + offset_x)%Z in
  let shooter_y := (h - 50 + offset_y)%Z in
  (shooter_x, shooter_y).

(** [_detect_hit_count], from the size of the centre region of the
    bubble and the two pixel counts of its thresholded image on. *)
Definition _detect_hit_count (region_size white_pixels total_pixels : Z) : Z :=
  if (region_size =? 0)%Z then 1%Z
  else if (total_pixels =? 0)%Z then 1%Z
  else
    let white_ratio := IZR white_pixels / IZR total_pixels in
    if Rltb white_ratio 0.1 then 1%Z
    else if Rltb white_ratio 0.2 then 2%Z
    else if Rltb white_ratio 0.3 then 3%Z
    else Z.max 1 (Z.min 9 (int (white_ratio * 10))).

(** What the image operations measure on one contour of the colour
    mask. *)
Record Contour : Type := mkContour {
  contour_area : R;              (* cv2.contourArea *)
  circle_x : R;                  (* cv2.minEnclosingCircle *)
  circle_y : R;
  circle_radius : R;
  center_size : Z;               (* bubble_center.size *)
  white_pixels : Z;              (* np.sum(thresh == 255) *)
  total_pixels : Z;              (* thresh.size *)
  mean_color : R * R * R         (* cv2.mean(...)[:3] *)
}.

(** [_detect_bubbles], contour by contour. *)
Definition _detect_bubbles (contours : list Contour) (offset_x offset_y : Z)
  : list Bubble :=
  fold_left
    (fun bubbles contour =>
       if Rltb (contour_area contour) 100 then bubbles
       else
         let radius := circle_radius contour in
         if Rleb min_bubble_radius radius && Rleb radius max_bubble_radius
         then
           let hit_count :=
             _detect_hit_count (center_size contour) (white_pixels contour)
               (total_pixels contour) in
           let '(c1, c2, c3) := mean_color contour in
           bubbles ++
           [mkBubble (int (circle_x contour) + offset_x)
                     (int (circle_y contour) + offset_y)
                     (int radius) hit_count (int c1, int c2, int c3)]
         else bubbles)
    contours [].

(** What one contour contributes to the bubbles. *)
Definition contour_bubbles (offset_x offset_y : Z) (contour : Contour)
  : list Bubble :=
  if Rltb (contour_area contour) 100 then []
  else
    let radius := circle_radius contour in
    if Rleb min_bubble_radius radius && Rleb radius max_bubble_radius
    then
      let hit_count :=
        _detect_hit_count (center_size contour) (white_pixels contour)
          (total_pixels contour) in
      let '(c1, c2, c3) := mean_color contour in
      [mkBubble (int (circle_x contour) + offset_x)
                (int (circle_y contour) + offset_y)
                (int radius) hit_count (int c1, int c2, int c3)]
    else [].

(** * [GameController.play_game_loop] ([game_controller.py])

    The browser, the clock and the detector's images are outside the
    embedding.  What they make of one round enters the loop as a value of
    [Round]; the loop itself, its two counters, its four ways to stop and
    its calls of the planner and of the aim point are those of the
    source.  The clicks made are collected in [clicks]. *)

(** What happens in one round up to the planner's answer. *)
Inductive Round : Type :=
| Raised
    (* an exception before the planner is asked (the screenshot, the
       debug image): caught by [except Exception], the round is spent *)
| NotDetected
    (* [detect_game_state] returned [None] *)
| Detected (game_state : GameState) (clicked : bool).
    (* a game state; [clicked] tells whether [aim_and_shoot] got as far
       as the click when the planner found a shot *)

(** The variables of the loop, and the clicks made so far. *)
Record Loop : Type := mkLoop {
  round_count : Z;
  consecutive_no_shots : Z;
  clicks : list (Z * Z)
}.

Inductive Stop : Type :=
| RoundsDone          (* [round_count < max_rounds] is false *)
| TooManyDetections   (* break: more than 10 rounds in a row without a shot,
                         the last without a game state *)
| NoBubblesLeft       (* break: a game state without bubbles *)
| TooManyRounds.      (* break: more than 5 rounds in a row without a shot,
                         the last without a shot of the planner *)

(** One run of the body of the [while] loop. *)
Definition round_body (round : Round) (l : Loop) : Loop * option Stop :=
  let round_count := (round_count l + 1)%Z in
  match round with
  | Raised => (mkLoop round_count (consecutive_no_shots l) (clicks l), None)
  | NotDetected =>
      let consecutive_no_shots := (consecutive_no_shots l + 1)%Z in
      let l' := mkLoop round_count consecutive_no_shots (clicks l) in
      if (10 <? consecutive_no_shots)%Z then (l', Some TooManyDetections)
      else (l', None)
  | Detected game_state clicked =>
      match bubbles game_state with
      | [] =>
          (mkLoop round_count (consecutive_no_shots l) (clicks l),
           Some NoBubblesLeft)
      | _ =>
          match calculate_best_shot game_state with
          | None =>
              let consecutive_no_shots := (consecutive_no_shots l + 1)%Z in
              let l' := mkLoop round_count consecutive_no_shots (clicks l) in
              if (5 <? consecutive_no_shots)%Z then (l', Some TooManyRounds)
              else (l', None)
          | Some (angle, target_bubble) =>
              let mouse_pos :=
                get_mouse_position_for_angle (shooter_position game_state)
                  angle 200 in
              (mkLoop round_count 0
                 (if clicked then clicks l ++ [mouse_pos] else clicks l),
               None)
          end
      end
  end.

(** The loop; [rounds k] is what happens in the round after [k] rounds.
    [None] when the fuel does not suffice. *)
Fixpoint game_loop (fuel : nat) (rounds : nat -> Round) (max_rounds : Z)
  (l : Loop) : option (Loop * Stop) :=
  if (round_count l <? max_rounds)%Z then
    match fuel with
    | O => None
    | S fuel' =>
        match round_body (rounds (Z.to_nat (round_count l))) l with
        | (l', Some stop) => Some (l', stop)
        | (l', None) => game_loop fuel' rounds max_rounds l'
        end
    end
  else Some (l, RoundsDone).

(** [play_game_loop]: every run of the body counts a round, so
    [max_rounds] runs are all the loop can make. *)
Definition play_game_loop (rounds : nat -> Round) (max_rounds : Z)
  : option (Loop * Stop) :=
  game_loop (Z.to_nat max_rounds) rounds max_rounds (mkLoop 0 0 []).


(** A click of the loop: the aim point, at distance 200, of the shot the
    planner found on the snapshot of some round in which the click was
    made. *)
Definition planned_click (rounds : nat -> Round) (bound : Z) (p : Z * Z)
  : Prop :=
  exists (k : nat) (gs : GameState) (a : R) (b : Bubble),
    (Z.of_nat k < bound)%Z /\
    rounds k = Detected gs true /\
    calculate_best_shot gs = Some (a, b) /\
    p = get_mouse_position_for_angle (shooter_position gs) a 200.

(** * Properties *)

(** ** Numbers *)

Lemma Rleb_true (a b : R) : Rleb a b = true <-> a <= b.
Proof. unfold Rleb; destruct (Rle_dec a b); split; intros; try easy; lra. Qed.

Lemma Rleb_false (a b : R) : Rleb a b = false <-> b < a.
Proof. unfold Rleb; destruct (Rle_dec a b); split; intros; try easy; lra. Qed.

Lemma Rltb_true (a b : R) : Rltb a b = true <-> a < b.
Proof. unfold Rltb; destruct (Rlt_dec a b); split; intros; try easy; lra. Qed.

Lemma Rltb_false (a b : R) : Rltb a b = false <-> b <= a.
Proof. unfold Rltb; destruct (Rlt_dec a b); split; intros; try easy; lra. Qed.

(** [int] on the two sides of zero, and on an integer. *)
Lemma int_nonneg (r : R) (z : Z) : 0 <= r -> IZR z <= r < IZR z + 1 -> int r = z.
Proof.
  intros H0 Hz. unfold int. destruct (Rle_dec 0 r); [|lra].
  now apply Zfloor_eq.
Qed.

Lemma int_neg (r : R) (z : Z) : r < 0 -> IZR z - 1 < r <= IZR z -> int r = z.
Proof.
  intros H0 Hz. unfold int. destruct (Rle_dec 0 r); [lra|].
  unfold Zceil. rewrite (Zfloor_eq (- z) (- r)); [lia|].
  rewrite opp_IZR. lra.
Qed.

Lemma int_IZR (z : Z) : int (IZR z) = z.
Proof.
  unfold int. destruct (Rle_dec 0 (IZR z)).
  - apply ZfloorZ.
  - unfold Zceil. rewrite ZfloorNZ. lia.
Qed.

(** Truncation never leaves an interval with integer ends. *)
Lemma int_lower (r : R) (a : Z) : IZR a <= r -> (a <= int r)%Z.
Proof.
  intros H. unfold int. destruct (Rle_dec 0 r).
  - now apply Zfloor_lub.
  - apply le_IZR. generalize (Zceil_bound r). lra.
Qed.

Lemma int_upper (r : R) (b : Z) : r <= IZR b -> (int r <= b)%Z.
Proof.
  intros H. unfold int. destruct (Rle_dec 0 r).
  - apply le_IZR. generalize (Zfloor_bound r). lra.
  - unfold Zceil.
    assert (- b <= Zfloor (- r))%Z; [|lia].
    apply Zfloor_lub. rewrite opp_IZR. lra.
Qed.

(** The angles of the sweep, in degrees. *)
Example range_sweep :
  range (-80) 81 5 =
  [-80; -75; -70; -65; -60; -55; -50; -45; -40; -35; -30; -25; -20; -15; -10;
   -5; 0; 5; 10; 15; 20; 25; 30; 35; 40; 45; 50; 55; 60; 65; 70; 75; 80]%Z.
Proof. reflexivity. Qed.

(** ** The prioritisation *)

Lemma tuple_ltb_false (a b : Bubble) :
  tuple_ltb (priority_key b) (priority_key a) = false <-> priority_le a b.
Proof.
  unfold tuple_ltb, priority_key, priority_le; simpl.
  rewrite orb_false_iff, andb_false_iff, !Z.ltb_ge, Z.eqb_neq. lia.
Qed.

Lemma tuple_ltb_true (a b : Bubble) :
  tuple_ltb (priority_key b) (priority_key a) = true -> priority_le b a.
Proof.
  unfold tuple_ltb, priority_key, priority_le; simpl.
  rewrite orb_true_iff, andb_true_iff, !Z.ltb_lt, Z.eqb_eq. lia.
Qed.

Lemma priority_le_trans (a b c : Bubble) :
  priority_le a b -> priority_le b c -> priority_le a c.
Proof. unfold priority_le. lia. Qed.

Lemma insert_perm (a : Bubble) (l : list Bubble) :
  Permutation (insert tuple_ltb priority_key a l) (a :: l).
Proof.
  induction l as [|b l IH]; simpl; [reflexivity|].
  destruct (tuple_ltb (priority_key b) (priority_key a)); [|reflexivity].
  rewrite IH. apply perm_swap.
Qed.

(** The sorted list has the elements of the input, each as often. *)
Lemma sorted_bubbles_perm (l : list Bubble) : Permutation (sorted_bubbles l) l.
Proof.
  induction l as [|a l IH]; simpl; [reflexivity|].
  unfold sorted_bubbles in *; simpl. rewrite insert_perm. now constructor.
Qed.

Lemma insert_sorted (a : Bubble) (l : list Bubble) :
  StronglySorted priority_le l ->
  StronglySorted priority_le (insert tuple_ltb priority_key a l).
Proof.
  induction 1 as [|b l Hs IH Hb]; simpl.
  - repeat constructor.
  - destruct (tuple_ltb (priority_key b) (priority_key a)) eqn:E.
    + constructor; [exact IH|].
      rewrite Forall_forall. intros c Hc.
      apply (Permutation_in _ (insert_perm a l)) in Hc. destruct Hc as [<-|Hc].
      * now apply tuple_ltb_true.
      * rewrite Forall_forall in Hb. now apply Hb.
    + apply tuple_ltb_false in E.
      constructor; [now constructor|].
      constructor; [exact E|].
      eapply Forall_impl; [|exact Hb].
      intros c Hc. eapply priority_le_trans; eassumption.
Qed.

(** What the code sorts by: fewer hits first and, among equal hits, the
    larger [y] first. *)
Lemma sorted_bubbles_sorted (l : list Bubble) :
  StronglySorted priority_le (sorted_bubbles l).
Proof.
  induction l as [|a l IH]; [constructor|].
  unfold sorted_bubbles in *; simpl. now apply insert_sorted.
Qed.

Lemma insert_stable (k : Z * Z) (a : Bubble) (l : list Bubble) :
  filter (has_key k) (insert tuple_ltb priority_key a l) =
  filter (has_key k) (a :: l).
Proof.
  induction l as [|b l IH]; [reflexivity|].
  simpl insert. destruct (tuple_ltb (priority_key b) (priority_key a)) eqn:E;
    [|reflexivity].
  simpl in *. rewrite IH.
  destruct (has_key k a) eqn:Ha, (has_key k b) eqn:Hb; try reflexivity.
  exfalso. unfold has_key in Ha, Hb. unfold tuple_ltb, priority_key in E.
  simpl in E. lia.
Qed.

Lemma sorted_bubbles_stable (k : Z * Z) (l : list Bubble) :
  filter (has_key k) (sorted_bubbles l) = filter (has_key k) l.
Proof.
  induction l as [|a l IH]; [reflexivity|].
  unfold sorted_bubbles, sorted in *. cbn [fold_right].
  rewrite insert_stable. simpl. now rewrite IH.
Qed.

(** C1, at two bubbles with one hit each: the one lower on the screen
    (y = 200) is sorted before the one higher up (y = 100), though it came
    second. *)
Theorem sorted_bubbles_lower_first :
  sorted_bubbles [bubble_high; bubble_low] = [bubble_low; bubble_high] /\
  hit_count bubble_high = hit_count bubble_low /\
  (y bubble_high < y bubble_low)%Z.
Proof. repeat split. Qed.

(** ** The simulator: the loop *)

Lemma sim_loop_unfold (fuel : nat) ga target (s : Sim) :
  sim_loop (S fuel) ga target s =
  if sim_cond ga s then
    match sim_body ga target s with
    | (s', Some e) => Some (s', e)
    | (s', None) => sim_loop fuel ga target s'
    end
  else Some (s, LoopCondition).
Proof. reflexivity. Qed.

(** What one run of the body does to the trajectory and to the bounce
    counter. *)
Lemma sim_body_trajectory ga target (s s' : Sim) (o : option Exit) :
  sim_body ga target s = (s', o) ->
  (o = Some BelowArea /\ trajectory s' = trajectory s) \/
  (o <> Some BelowArea /\
   (exists p, trajectory s' = trajectory s ++ [p]) /\
   (o = None -> (length (trajectory s') <= point_cap)%nat)).
Proof.
  destruct ga as [[[xm ym] width] height]. unfold sim_body. intros H.
  destruct (Rleb (IZR (ym + height)) _) in H.
  - injection H as <- <-. now left.
  - right.
    destruct (_ && _) in H;
      [|destruct (point_cap <? _)%nat eqn:E in H]; injection H as <- <-;
      cbn [trajectory];
      (split; [discriminate|split; [eexists; reflexivity|]]); try discriminate.
    intros _. now apply Nat.ltb_ge in E.
Qed.

Lemma sim_body_bounces ga target (s s' : Sim) (o : option Exit) :
  sim_body ga target s = (s', o) ->
  (bounces s <= bounces s' <= bounces s + 1)%Z.
Proof.
  destruct ga as [[[x_min y_min] width] height]. unfold sim_body.
  destruct (Rleb (IZR (y_min + height)) _);
    [|destruct (_ && _); [|destruct (point_cap <? _)%nat]];
    intros [= <- <-]; cbn [bounces];
    destruct (Rleb _ (IZR x_min) || _); lia.
Qed.

Lemma sim_body_length ga target (s s' : Sim) (o : option Exit) :
  sim_body ga target s = (s', o) ->
  (length (trajectory s) <= length (trajectory s') <= S (length (trajectory s)))%nat.
Proof.
  intros H. destruct (sim_body_trajectory _ _ _ _ _ H) as [[_ ->]|[_ [[p ->] _]]].
  - lia.
  - rewrite length_app. simpl. lia.
Qed.

(** Fuel: the loop body runs at most [point_cap + 1 - len(trajectory)]
    times, and once at least when the trajectory is already that long. *)
Lemma sim_loop_enough ga target (n : nat) :
  forall s : Sim,
    (point_cap < S n + length (trajectory s))%nat ->
    exists r, forall fuel, (S n <= fuel)%nat -> sim_loop fuel ga target s = Some r.
Proof.
  induction n as [|n IH]; intros s Hn;
    destruct (sim_cond ga s) eqn:Hc;
    try (exists (s, LoopCondition); intros [|fuel] Hf;
         [lia|rewrite sim_loop_unfold, Hc; reflexivity]);
    destruct (sim_body ga target s) as [s' [e|]] eqn:Hb;
    try (exists (s', e); intros [|fuel] Hf;
         [lia|rewrite sim_loop_unfold, Hc, Hb; reflexivity]);
    destruct (sim_body_trajectory _ _ _ _ _ Hb) as [[? _]|[_ [[p Hp] Hcap]]];
    try discriminate; specialize (Hcap eq_refl).
  - exfalso. rewrite Hp, length_app in Hcap. simpl in Hcap. lia.
  - destruct (IH s') as [r Hr].
    { rewrite Hp, length_app. simpl. lia. }
    exists r. intros [|fuel] Hf; [lia|].
    rewrite sim_loop_unfold, Hc, Hb. apply Hr. lia.
Qed.

Lemma sim_cond_bounces ga (s : Sim) :
  sim_cond ga s = true -> (bounces s <= max_bounces)%Z.
Proof.
  destruct ga as [[[? ?] ?] ?]. unfold sim_cond. intros H.
  apply andb_prop in H. now apply Z.leb_le.
Qed.

Lemma sim_loop_bounces ga target (fuel : nat) :
  forall (s s' : Sim) (e : Exit),
    sim_loop fuel ga target s = Some (s', e) ->
    (bounces s <= max_bounces + 1)%Z -> (bounces s' <= max_bounces + 1)%Z.
Proof.
  induction fuel as [|fuel IH]; intros s s' e; cbn [sim_loop];
    destruct (sim_cond ga s) eqn:Hc; try discriminate;
    try (intros [= <- <-]; tauto).
  apply sim_cond_bounces in Hc.
  destruct (sim_body ga target s) as [s1 o] eqn:Hb.
  apply sim_body_bounces in Hb.
  destruct o as [e1|].
  - intros [= <- <-] _. lia.
  - intros H _. apply (IH _ _ _ H). lia.
Qed.

(** The trajectory only grows, by points appended at its end, and holds at
    most [point_cap + 1] points when the loop ends. *)
Lemma sim_loop_prefix ga target (fuel : nat) :
  forall (s s' : Sim) (e : Exit),
    sim_loop fuel ga target s = Some (s', e) ->
    exists added, trajectory s' = trajectory s ++ added.
Proof.
  induction fuel as [|fuel IH]; intros s s' e; cbn [sim_loop];
    destruct (sim_cond ga s); try discriminate;
    try (intros [= <- <-]; exists []; now rewrite app_nil_r).
  destruct (sim_body ga target s) as [s1 o] eqn:Hb.
  assert (exists a1, trajectory s1 = trajectory s ++ a1) as [a1 H1].
  { destruct (sim_body_trajectory _ _ _ _ _ Hb) as [[_ ->]|[_ [[p ->] _]]].
    - exists []. now rewrite app_nil_r.
    - now exists [p]. }
  destruct o as [e1|].
  - intros [= <- <-]. now exists a1.
  - intros H. destruct (IH _ _ _ H) as [a2 H2].
    exists (a1 ++ a2). now rewrite H2, H1, app_assoc.
Qed.

Lemma sim_loop_length ga target (fuel : nat) :
  forall (s s' : Sim) (e : Exit),
    sim_loop fuel ga target s = Some (s', e) ->
    (length (trajectory s) <= point_cap)%nat ->
    (length (trajectory s') <= S point_cap)%nat.
Proof.
  induction fuel as [|fuel IH]; intros s s' e; cbn [sim_loop];
    destruct (sim_cond ga s); try discriminate;
    try (intros [= <- <-]; lia).
  destruct (sim_body ga target s) as [s1 [e1|]] eqn:Hb.
  - intros [= <- <-] Hl. apply sim_body_length in Hb. lia.
  - intros H _. apply (IH _ _ _ H).
    destruct (sim_body_trajectory _ _ _ _ _ Hb) as [[? _]|[_ [_ Hcap]]];
      [discriminate|]. now apply Hcap.
Qed.

(** C5.  The simulation terminates within its caps, for every origin,
    angle, play area and target: the loop started as the function starts
    it ends within [point_cap] = 1000 runs of its body (that much fuel
    suffices, and more fuel changes nothing), with at most 1001 recorded
    points and at most [max_bounces + 1] bounces; what the function
    returns is read off that final state. *)
Theorem simulation_terminates (start_pos : Z * Z) (angle : R)
  (ga : Z * Z * Z * Z) (target : Bubble) :
  exists (s : Sim) (e : Exit),
    (forall fuel, (point_cap <= fuel)%nat ->
       sim_loop fuel ga target (sim_init start_pos angle) = Some (s, e)) /\
    _simulate_trajectory start_pos angle ga target = sim_result (Some (s, e)) /\
    (length (trajectory s) <= S point_cap)%nat /\
    (bounces s <= max_bounces + 1)%Z.
Proof.
  destruct (sim_loop_enough ga target (pred point_cap) (sim_init start_pos angle))
    as [[s e] Hr].
  { destruct start_pos. unfold point_cap. simpl. lia. }
  exists s, e. split; [exact Hr|].
  pose proof (Hr point_cap (Nat.le_refl _)) as H.
  split; [unfold _simulate_trajectory; now rewrite H|].
  split.
  - apply (sim_loop_length _ _ _ _ _ _ H). destruct start_pos.
    unfold point_cap. simpl. lia.
  - apply (sim_loop_bounces _ _ _ _ _ _ H). destruct start_pos. simpl.
    unfold max_bounces. lia.
Qed.

(** ** The simulator on concrete inputs

    The reals do not compute: a run is followed state by state, and each
    comparison of a step is settled by linear arithmetic. *)

Lemma sim_loop_continue ga target (fuel : nat) (s s' : Sim) :
  sim_cond ga s = true -> sim_body ga target s = (s', None) ->
  sim_loop (S fuel) ga target s = sim_loop fuel ga target s'.
Proof. intros Hc Hb. now rewrite sim_loop_unfold, Hc, Hb. Qed.

Lemma sim_loop_break ga target (fuel : nat) (s s' : Sim) (e : Exit) :
  sim_cond ga s = true -> sim_body ga target s = (s', Some e) ->
  sim_loop (S fuel) ga target s = Some (s', e).
Proof. intros Hc Hb. now rewrite sim_loop_unfold, Hc, Hb. Qed.

Lemma sim_loop_exit ga target (fuel : nat) (s : Sim) :
  sim_cond ga s = false -> sim_loop fuel ga target s = Some (s, LoopCondition).
Proof. intros Hc. destruct fuel; simpl; now rewrite Hc. Qed.

Ltac rsolve :=
  unfold Rabs, Rmax, Rmin;
  repeat match goal with
    | |- context [Rle_dec ?a ?b] => destruct (Rle_dec a b)
    | |- context [Rcase_abs ?a] => destruct (Rcase_abs a)
    end;
  lra.

Ltac zconst :=
  repeat match goal with
    | |- context [IZR ?z] =>
        progress (let z' := eval vm_compute in z in change z with z')
    end.

Ltac rdecide :=
  repeat (match goal with
    | |- context [Rleb ?a ?b] =>
        first [ rewrite (proj2 (Rleb_true a b)) by rsolve
              | rewrite (proj2 (Rleb_false a b)) by rsolve ]
    | |- context [Rltb ?a ?b] =>
        first [ rewrite (proj2 (Rltb_true a b)) by rsolve
              | rewrite (proj2 (Rltb_false a b)) by rsolve ]
    end; cbn [orb andb negb]).

Ltac int_eval :=
  first [ apply int_nonneg; [rsolve | split; rsolve]
        | apply int_neg; [rsolve | split; rsolve] ].

(** The loop condition, and one run of the body, at a state given by
    numerals. *)
Ltac sim_cond_eval :=
  unfold sim_cond, max_bounces; cbn [pos_y bounces];
  zconst; rdecide; reflexivity.

Ltac sim_body_eval :=
  unfold sim_body;
  cbn [pos_x pos_y vel_x vel_y trajectory bounces x y radius app length];
  unfold dt, gravity, bounce_damping, point_cap;
  zconst; rdecide;
  cbn [Nat.ltb Nat.leb andb orb negb Z.add Pos.add Pos.succ];
  repeat f_equal; try rsolve; try int_eval.

Lemma wall_init : sim_init wall_origin 0 = wall_state 0.
Proof.
  unfold sim_init, wall_origin, wall_state, bullet_speed.
  rewrite sin_0, cos_0. repeat f_equal; lra.
Qed.

Lemma wall_step (k : nat) :
  (k < 4)%nat ->
  sim_cond wall_area (wall_state k) = true /\
  sim_body wall_area far_target (wall_state k) = (wall_state (S k), None).
Proof.
  intros Hk.
  destruct k as [|[|[|[|k]]]]; try lia;
    unfold wall_area, far_target, wall_state;
    (split; [sim_cond_eval|sim_body_eval]).
Qed.

(** Straight up along the left wall: four steps, four bounces, and the
    loop condition ends the run; the five points are returned. *)
Lemma wall_run (fuel : nat) :
  (4 <= fuel)%nat ->
  sim_loop fuel wall_area far_target (sim_init wall_origin 0) =
    Some (wall_state 4, LoopCondition).
Proof.
  intros Hf. rewrite wall_init.
  do 4 (destruct fuel as [|fuel]; [lia|]).
  rewrite (sim_loop_continue _ _ _ _ (wall_state 1)) by (apply (wall_step 0); lia).
  rewrite (sim_loop_continue _ _ _ _ (wall_state 2)) by (apply (wall_step 1); lia).
  rewrite (sim_loop_continue _ _ _ _ (wall_state 3)) by (apply (wall_step 2); lia).
  rewrite (sim_loop_continue _ _ _ _ (wall_state 4)) by (apply (wall_step 3); lia).
  apply sim_loop_exit. reflexivity.
Qed.

Lemma high_init : sim_init high_origin (PI / 2) = high_state 0.
Proof.
  unfold sim_init, high_origin, high_state, bullet_speed.
  rewrite sin_PI2, cos_PI2. repeat f_equal; lra.
Qed.

(** Level to the right from one unit above a floor at y = 0: the second
    step is at y = -0.99748864, strictly above the floor, and [int]
    records it as y = 0, on the floor. *)
Lemma high_run :
  _simulate_trajectory high_origin (PI / 2) high_area near_target =
    Some [(400, -1); (408, -1); (416, 0)]%Z.
Proof.
  unfold _simulate_trajectory. rewrite high_init.
  change point_cap with (S (S 998)).
  rewrite (sim_loop_continue _ _ _ _ (high_state 1)).
  - rewrite (sim_loop_break _ _ _ _ (high_state 2) CloseToTarget);
      [reflexivity| |];
      unfold high_area, near_target, high_state;
      [sim_cond_eval|sim_body_eval].
  - unfold high_area, high_state. sim_cond_eval.
  - unfold high_area, near_target, high_state. sim_body_eval.
Qed.

(** Straight up from the floor itself: the origin is recorded as it is. *)
Lemma floor_run :
  _simulate_trajectory floor_origin 0 wall_area step_target =
    Some [(400, 600); (400, 592)]%Z.
Proof.
  unfold _simulate_trajectory.
  assert (sim_init floor_origin 0 = mkSim 400 600 0 (-500) [(400, 600)%Z] 0)
    as ->.
  { unfold sim_init, floor_origin, bullet_speed.
    rewrite sin_0, cos_0. repeat f_equal; lra. }
  change point_cap with (S 999).
  rewrite (sim_loop_break _ _ _ _
             (mkSim 400 592 0 (-499.84304) [(400, 600); (400, 592)]%Z 0)
             CloseToTarget);
    [reflexivity| |]; unfold wall_area, step_target;
    [sim_cond_eval|sim_body_eval].
Qed.

(** ** The simulator: where the recorded points lie *)

(** A point the body appends is the truncation of a position between the
    walls and strictly above the floor. *)
Lemma sim_body_point ga target (s s' : Sim) (o : option Exit) :
  (x_min ga <= x_max ga)%Z ->
  sim_body ga target s = (s', o) ->
  trajectory s' = trajectory s \/
  exists x2 y1 : R,
    trajectory s' = trajectory s ++ [(int x2, int y1)] /\
    IZR (x_min ga) <= x2 <= IZR (x_max ga) /\ y1 < IZR (y_max ga).
Proof.
  destruct ga as [[[xm ym] width] height].
  unfold x_min, x_max, y_max, sim_body. intros Hw H.
  apply IZR_le in Hw.
  destruct (Rleb (IZR (ym + height)) _) eqn:Hfloor in H.
  - injection H as <- _. now left.
  - right. apply Rleb_false in Hfloor.
    match type of H with
    | context [mkSim ?x2 ?y1 _ _ (_ ++ [_]) _] => exists x2, y1
    end.
    split; [|split; [|exact Hfloor]].
    + destruct (_ && _) in H; [|destruct (point_cap <? _)%nat in H];
        injection H as <- _; reflexivity.
    + destruct (Rleb _ (IZR xm)) eqn:Hl; cbn [orb].
      * split; [apply Rmax_l|apply Rmax_lub; [exact Hw|apply Rmin_l]].
      * apply Rleb_false in Hl.
        destruct (Rleb (IZR (xm + width)) _) eqn:Hr.
        -- split; [apply Rmax_l|apply Rmax_lub; [exact Hw|apply Rmin_l]].
        -- apply Rleb_false in Hr. lra.
Qed.

Lemma sim_loop_points ga target (P : Z * Z -> Prop) :
  (x_min ga <= x_max ga)%Z ->
  (forall x2 y1 : R,
     IZR (x_min ga) <= x2 <= IZR (x_max ga) -> y1 < IZR (y_max ga) ->
     P (int x2, int y1)) ->
  forall (fuel : nat) (s s' : Sim) (e : Exit),
    sim_loop fuel ga target s = Some (s', e) ->
    Forall P (trajectory s) -> Forall P (trajectory s').
Proof.
  intros Hw HP.
  induction fuel as [|fuel IH]; intros s s' e; cbn [sim_loop];
    destruct (sim_cond ga s); try discriminate;
    try (intros [= <- <-]; tauto).
  destruct (sim_body ga target s) as [s1 o] eqn:Hb. intros H Hs.
  assert (Forall P (trajectory s1)) as H1.
  { destruct (sim_body_point _ _ _ _ _ Hw Hb) as [->|(x2 & y1 & -> & Hx & Hy)];
      [exact Hs|].
    apply Forall_app. split; [exact Hs|]. constructor; [|constructor].
    now apply HP. }
  destruct o as [e1|].
  - now injection H as <- _.
  - now apply (IH _ _ _ H).
Qed.

(** Truncation of a position strictly above a floor at a positive height
    stays strictly above it. *)
Lemma int_below (r : R) (b : Z) : (0 < b)%Z -> r < IZR b -> (int r < b)%Z.
Proof.
  intros Hb H. unfold int. destruct (Rle_dec 0 r).
  - apply lt_IZR. generalize (Zfloor_bound r). lra.
  - assert (int r <= 0)%Z; [apply int_upper; lra|].
    unfold int in *. destruct (Rle_dec 0 r); [lra|lia].
Qed.

(** ** The simulator: when it returns [None] *)

Lemma sim_loop_some ga target (s : Sim) :
  (2 <= length (trajectory s))%nat ->
  exists (s' : Sim) (e : Exit),
    sim_loop (pred point_cap) ga target s = Some (s', e).
Proof.
  intros Hl.
  destruct (sim_loop_enough ga target (pred (pred point_cap)) s) as [[s' e] H].
  - unfold point_cap. lia.
  - exists s', e. apply H. unfold point_cap. lia.
Qed.

Lemma simulate_none_iff (sx sy : Z) (angle : R) ga target :
  _simulate_trajectory (sx, sy) angle ga target = None <->
  (IZR sy <= IZR (y_min ga) \/
   IZR (y_max ga) <= IZR sy + - bullet_speed * cos angle * dt).
Proof.
  unfold _simulate_trajectory. change point_cap with (S (pred point_cap)).
  rewrite sim_loop_unfold.
  destruct ga as [[[xm ym] width] height]. unfold y_min, y_max.
  unfold sim_cond at 1. cbn [sim_init bounces pos_y]. cbn [Z.leb Z.compare andb].
  destruct (Rltb (IZR ym) (IZR sy)) eqn:Hc.
  2:{ apply Rltb_false in Hc. simpl. tauto. }
  apply Rltb_true in Hc.
  destruct (sim_body _ target _) as [s1 o] eqn:Hb.
  unfold sim_body in Hb. cbn [pos_x pos_y vel_x vel_y trajectory bounces] in Hb.
  destruct (Rleb (IZR (ym + height)) _) eqn:Hfloor in Hb.
  - injection Hb as <- <-. simpl. apply Rleb_true in Hfloor. tauto.
  - apply Rleb_false in Hfloor.
    assert (exists p, trajectory s1 = [(sx, sy); p]) as [p Hp].
    { destruct (_ && _) in Hb; [|destruct (point_cap <? _)%nat in Hb];
        injection Hb as <- _; eexists; reflexivity. }
    assert (forall r, (exists added, trajectory (fst r) = trajectory s1 ++ added) ->
                      sim_result (Some r) <> None) as Hres.
    { intros [s2 e2] [added Ha]. simpl in *. rewrite Ha, Hp. simpl. discriminate. }
    split; [|lra]. intros H. exfalso. revert H.
    destruct o as [e1|].
    + apply Hres. exists []. now rewrite app_nil_r.
    + destruct (sim_loop_some (xm, ym, width, height) target s1) as (s2 & e2 & H2).
      { rewrite Hp. simpl. lia. }
      rewrite H2. apply Hres. simpl. eapply sim_loop_prefix. exact H2.
Qed.

(** ** Square roots against integer bounds *)

Lemma sqrt_le_int (v r : Z) :
  (0 <= v)%Z -> sqrt (IZR v) <= IZR r <-> (0 <= r /\ v <= r * r)%Z.
Proof.
  intros Hv. apply IZR_le in Hv. split.
  - intros H. pose proof (sqrt_pos (IZR v)) as Hs.
    split; [apply le_IZR; lra|].
    apply le_IZR. rewrite mult_IZR, <- (sqrt_sqrt (IZR v)) by exact Hv. nra.
  - intros [Hr Hle]. apply IZR_le in Hr, Hle. rewrite mult_IZR in Hle.
    rewrite <- (sqrt_square (IZR r)) by exact Hr.
    now apply sqrt_le_1_alt.
Qed.

Lemma sqrt_lt_scaled (v k : Z) :
  (0 <= v)%Z -> sqrt (IZR v) < IZR k * 1.5 <-> (0 < k /\ 4 * v < 9 * (k * k))%Z.
Proof.
  intros Hv. apply IZR_le in Hv. split.
  - intros H. pose proof (sqrt_pos (IZR v)) as Hs.
    split; [apply lt_IZR; lra|].
    apply lt_IZR. rewrite !mult_IZR, <- (sqrt_sqrt (IZR v)) by exact Hv. nra.
  - intros [Hk Hlt]. apply IZR_lt in Hk, Hlt. rewrite !mult_IZR in Hlt.
    rewrite <- (sqrt_square (IZR k * 1.5)) by lra.
    apply sqrt_lt_1_alt. split; [exact Hv|lra].
Qed.

Lemma squares_nonneg (a b : Z) : (0 <= a ^ 2 + b ^ 2)%Z.
Proof. nia. Qed.

(** The hit test of the planner, computed on integers. *)
Lemma trajectory_hits_target_int (traj : list (Z * Z)) (target : Bubble) :
  _trajectory_hits_target traj target = existsb (hits_point target) traj.
Proof.
  induction traj as [|[px py] traj IH]; [reflexivity|].
  cbn [_trajectory_hits_target existsb]. rewrite IH.
  unfold hits_point; cbn [fst snd].
  destruct (Rleb _ _) eqn:E.
  - apply Rleb_true, sqrt_le_int in E; [|apply squares_nonneg].
    destruct E as [E1 E2]. apply Z.leb_le in E1, E2. now rewrite E1, E2.
  - destruct (_ && _)%Z eqn:E'; [|reflexivity].
    apply andb_prop in E'. destruct E' as [E1 E2]. apply Z.leb_le in E1, E2.
    apply Rleb_false in E.
    pose proof (proj2 (sqrt_le_int _ _ (squares_nonneg (px - x target)
                                          (py - y target))) (conj E1 E2)).
    lra.
Qed.

Lemma wall_result :
  _simulate_trajectory wall_origin 0 wall_area far_target =
    Some [(0, 500); (0, 492); (0, 484); (0, 476); (0, 468)]%Z.
Proof.
  unfold _simulate_trajectory. rewrite wall_run by (unfold point_cap; lia).
  reflexivity.
Qed.

(** C3, refuted at a shot straight up along the left wall of the play
    area (0, 0, 800, 600), from (0, 500), the target far away: the
    projectile bounces on every step, the loop ends when the bounce
    counter, at 4, exceeds the maximum 3, no recorded point hits the
    target, and the five points are returned, not [None]. *)
Lemma simulation_keeps_partial_path :
  - (PI / 2) <= 0 <= PI / 2 /\
  (exists s : Sim,
     sim_loop point_cap wall_area far_target (sim_init wall_origin 0) =
       Some (s, LoopCondition) /\
     (max_bounces < bounces s)%Z /\
     _trajectory_hits_target (trajectory s) far_target = false) /\
  _simulate_trajectory wall_origin 0 wall_area far_target =
    Some [(0, 500); (0, 492); (0, 484); (0, 476); (0, 468)]%Z.
Proof.
  pose proof PI_RGT_0 as Hpi.
  assert (sim_loop point_cap wall_area far_target (sim_init wall_origin 0) =
            Some (wall_state 4, LoopCondition)) as H.
  { apply wall_run. unfold point_cap. lia. }
  split; [lra|]. split; [|exact wall_result].
  exists (wall_state 4). split; [exact H|]. split; [reflexivity|].
  rewrite trajectory_hits_target_int. reflexivity.
Qed.

(** C3, amended.  The simulator returns [None] exactly when it recorded
    no point besides the origin: the origin is on or above the ceiling
    ([y <= y_min], the loop does not start) or the first step is on or
    below the floor ([y >= y_max]).  However the loop ends afterwards (the
    floor, the bounce cap, the cap on the points, the target), a
    trajectory of two points or more is returned as it stands. *)
Theorem simulation_none_iff (sx sy : Z) (angle : R) (ga : Z * Z * Z * Z)
  (target : Bubble) :
  (_simulate_trajectory (sx, sy) angle ga target = None <->
   IZR sy <= IZR (y_min ga) \/
   IZR (y_max ga) <= IZR sy + - bullet_speed * cos angle * dt) /\
  (forall (s : Sim) (e : Exit),
     sim_loop point_cap ga target (sim_init (sx, sy) angle) = Some (s, e) ->
     (2 <= length (trajectory s))%nat ->
     _simulate_trajectory (sx, sy) angle ga target = Some (trajectory s)).
Proof.
  split; [apply simulate_none_iff|].
  intros s e H Hl. unfold _simulate_trajectory. rewrite H. simpl.
  destruct (trajectory s) as [|p [|q l]]; simpl in *; try lia. reflexivity.
Qed.

(** C4, refuted at a level shot to the right in the play area
    (0, -600, 800, 600), whose floor is the line y = 0, from (400, -1),
    strictly inside: the third recorded point is (416, 0), on the floor,
    not above it. *)
Lemma trajectory_point_on_floor :
  - (PI / 2) <= PI / 2 <= PI / 2 /\
  in_area high_area high_origin /\
  above_floor high_area high_origin /\
  _simulate_trajectory high_origin (PI / 2) high_area near_target =
    Some [(400, -1); (408, -1); (416, 0)]%Z /\
  ~ above_floor high_area (416, 0)%Z.
Proof.
  pose proof PI_RGT_0 as Hpi.
  split; [lra|]. split; [unfold in_area; simpl; lia|].
  split; [unfold above_floor; simpl; lia|].
  split; [exact high_run|]. unfold above_floor. simpl. lia.
Qed.

(** The same with the shooter on the floor of the usual play area: the
    origin is the first point of the trajectory, and it is not above the
    floor. *)
Example trajectory_origin_on_floor :
  in_area wall_area floor_origin /\
  _simulate_trajectory floor_origin 0 wall_area step_target =
    Some [(400, 600); (400, 592)]%Z /\
  ~ above_floor wall_area (400, 600)%Z.
Proof.
  split; [unfold in_area; simpl; lia|]. split; [exact floor_run|].
  unfold above_floor. simpl. lia.
Qed.

(** C4, amended.  With the origin in the play area, every point of a
    returned trajectory is between the walls and on or above the floor
    ([y <= y_max]); it is strictly above the floor ([y < y_max]) when the
    floor is at a positive height and the origin is strictly above it. *)
Theorem trajectory_in_area (start_pos : Z * Z) (angle : R)
  (ga : Z * Z * Z * Z) (target : Bubble) (traj : list (Z * Z)) :
  in_area ga start_pos ->
  _simulate_trajectory start_pos angle ga target = Some traj ->
  Forall (fun p => within_walls ga p /\ not_below_floor ga p) traj /\
  ((0 < y_max ga)%Z -> above_floor ga start_pos ->
   Forall (fun p => within_walls ga p /\ above_floor ga p) traj).
Proof.
  intros Hin. unfold _simulate_trajectory.
  destruct (sim_loop _ _ _ _) as [[s e]|] eqn:H; [|discriminate].
  simpl. destruct (1 <? _)%nat; [|discriminate]. intros [= <-].
  destruct start_pos as [sx sy]. destruct Hin as [Hx Hy]. cbn [fst snd] in *.
  assert (x_min ga <= x_max ga)%Z as Hw by lia.
  split; [|intros Hpos Hstart];
    (eapply (sim_loop_points ga target _ Hw); [|exact H|]).
  - intros x2 y1 Hx2 Hy1. unfold within_walls, not_below_floor. cbn [fst snd].
    repeat split; [apply int_lower|apply int_upper|apply int_upper]; lra.
  - simpl. constructor; [|constructor].
    unfold within_walls, not_below_floor. cbn [fst snd]. lia.
  - intros x2 y1 Hx2 Hy1. unfold within_walls, above_floor. cbn [fst snd].
    repeat split; [apply int_lower|apply int_upper|apply int_below]; tauto || lra.
  - simpl. constructor; [|constructor].
    unfold within_walls, above_floor in *. cbn [fst snd] in *. lia.
Qed.

Lemma trajectory_in_area_witness :
  in_area wall_area wall_origin /\
  Forall (fun p => within_walls wall_area p /\ not_below_floor wall_area p)
    [(0, 500); (0, 492); (0, 484); (0, 476); (0, 468)]%Z /\
  Forall (fun p => within_walls wall_area p /\ above_floor wall_area p)
    [(0, 500); (0, 492); (0, 484); (0, 476); (0, 468)]%Z.
Proof.
  assert (in_area wall_area wall_origin) as Hin
    by (unfold in_area; simpl; lia).
  destruct (trajectory_in_area wall_origin 0 wall_area far_target _
              Hin wall_result) as [H1 H2].
  split; [exact Hin|]. split; [exact H1|].
  apply H2; [reflexivity|unfold above_floor; simpl; lia].
Defined.

(** ** The direct shot *)

Lemma atan2_right (a b : R) : 0 < b -> atan2 a b = atan (a / b).
Proof. intros H. unfold atan2. destruct (Rlt_dec 0 b); [reflexivity|lra]. Qed.

Lemma Rabs_atan (v : R) : Rabs (atan v) < PI / 2.
Proof.
  pose proof (atan_bound v). unfold Rabs.
  destruct (Rcase_abs (atan v)); lra.
Qed.

Lemma direct_shot_above (sx sy : Z) (target : Bubble) :
  (y target < sy)%Z ->
  _calculate_direct_shot (sx, sy) target =
    Some (atan (IZR (x target - sx) / - IZR (y target - sy))).
Proof.
  intros H. unfold _calculate_direct_shot.
  destruct (y target - sy >=? 0)%Z eqn:E; [lia|].
  rewrite atan2_right by (apply IZR_lt; lia).
  rewrite opp_IZR.
  now rewrite (proj2 (Rltb_false _ _)) by (apply Rlt_le, Rabs_atan).
Qed.

Lemma direct_shot_not_above (sx sy : Z) (target : Bubble) :
  (sy <= y target)%Z -> _calculate_direct_shot (sx, sy) target = None.
Proof.
  intros H. unfold _calculate_direct_shot.
  destruct (y target - sy >=? 0)%Z eqn:E; [reflexivity|lia].
Qed.

Lemma direct_shot_vertical (sx sy : Z) (target : Bubble) :
  (y target < sy)%Z -> x target = sx ->
  _calculate_direct_shot (sx, sy) target = Some 0.
Proof.
  intros H Hx. rewrite (direct_shot_above _ _ _ H), Hx, Z.sub_diag.
  unfold Rdiv. now rewrite Rmult_0_l, atan_0.
Qed.

(** C8.  The direct shot is defined exactly when the target is strictly
    above the shooter and the arctangent of the horizontal displacement
    over the negated vertical one is at most pi/2 in magnitude; the angle
    returned is that arctangent, it lies in [-pi/2, pi/2], and it is 0 for
    a target straight above the shooter. *)
Theorem direct_shot_spec (sx sy : Z) (target : Bubble) :
  let dx := IZR (x target - sx) in
  let dy := IZR (y target - sy) in
  (forall a : R,
     _calculate_direct_shot (sx, sy) target = Some a <->
     (y target < sy)%Z /\ Rabs (atan (dx / - dy)) <= PI / 2 /\
     a = atan (dx / - dy)) /\
  (forall a : R,
     _calculate_direct_shot (sx, sy) target = Some a ->
     - (PI / 2) <= a <= PI / 2) /\
  ((y target < sy)%Z -> x target = sx ->
   _calculate_direct_shot (sx, sy) target = Some 0).
Proof.
  intros dx dy. subst dx dy.
  pose proof (atan_bound (IZR (x target - sx) / - IZR (y target - sy))) as Hb.
  destruct (Z.lt_ge_cases (y target) sy) as [H|H].
  - rewrite (direct_shot_above _ _ _ H). split; [|split].
    + intros a. split.
      * intros [= <-]. split; [exact H|]. split; [|reflexivity].
        apply Rlt_le, Rabs_atan.
      * intros (_ & _ & ->). reflexivity.
    + intros a [= <-]. lra.
    + intros _ Hx. rewrite <- (direct_shot_above _ _ _ H).
      now apply direct_shot_vertical.
  - rewrite (direct_shot_not_above _ _ _ H). split; [|split].
    + intros a. split; [discriminate|]. intros (? & _). lia.
    + discriminate.
    + lia.
Qed.

(** The scenarios of the specification. *)
Example direct_shot_straight_up :
  _calculate_direct_shot (400, 500)%Z (mkBubble 400 100 30 3 (255, 0, 0)%Z)
  = Some 0.
Proof.
  rewrite direct_shot_above by (simpl; lia). simpl x; simpl y.
  f_equal. replace (IZR (400 - 400) / - IZR (100 - 500)) with 0.
  - exact atan_0.
  - rewrite Z.sub_diag. unfold Rdiv. now rewrite Rmult_0_l.
Qed.

Example direct_shot_diagonal :
  _calculate_direct_shot (0, 100)%Z (mkBubble 100 0 30 3 (255, 0, 0)%Z)
  = Some (PI / 4).
Proof.
  rewrite direct_shot_above by (simpl; lia). simpl x; simpl y.
  f_equal. replace (IZR (100 - 0) / - IZR (0 - 100)) with 1.
  - exact atan_1.
  - replace (100 - 0)%Z with 100%Z by reflexivity.
    replace (0 - 100)%Z with (-100)%Z by reflexivity.
    replace (- IZR (-100)) with 100 by lra. lra.
Qed.

(** ** Chain potential *)

Lemma color_eqb_eq (c d : Z * Z * Z) : color_eqb c d = true <-> c = d.
Proof.
  destruct c as [[c1 c2] c3], d as [[d1 d2] d3]. unfold color_eqb.
  rewrite !andb_true_iff, !Z.eqb_eq. split.
  - intros [[-> ->] ->]. reflexivity.
  - intros [= -> -> ->]. auto.
Qed.

(** [==] on bubbles is equality of the five fields. *)
Lemma Bubble_eqb_eq (a b : Bubble) : Bubble_eqb a b = true <-> a = b.
Proof.
  destruct a, b. unfold Bubble_eqb. cbn [x y radius hit_count color].
  rewrite !andb_true_iff, !Z.eqb_eq, color_eqb_eq. split.
  - intros [[[[-> ->] ->] ->] ->]. reflexivity.
  - intros [= -> -> -> -> ->]. auto.
Qed.

Lemma Bubble_eqb_refl (a : Bubble) : Bubble_eqb a a = true.
Proof. now apply Bubble_eqb_eq. Qed.


(** The test of the loop body, in integers. *)
Lemma chain_test_int (target b : Bubble) :
  negb (Bubble_eqb b target)
  && Rltb (sqrt (IZR ((x b - x target) ^ 2 + (y b - y target) ^ 2)))
          (IZR (radius target + radius b) * 1.5)
  = chain_neighbourb target b.
Proof.
  unfold chain_neighbourb. f_equal.
  pose proof (sqrt_lt_scaled _ (radius target + radius b)
                (squares_nonneg (x b - x target) (y b - y target))) as H.
  destruct (Rltb _ _) eqn:E.
  - apply Rltb_true, H in E. destruct E as [E1 E2].
    apply Z.ltb_lt in E1, E2. now rewrite E1, E2.
  - destruct (_ && _)%Z eqn:E'; [|reflexivity].
    apply andb_prop in E'. destruct E' as [E1 E2]. apply Z.ltb_lt in E1, E2.
    apply Rltb_false in E. pose proof (proj2 H (conj E1 E2)). lra.
Qed.


Lemma chain_potential_count (target : Bubble) (l : list Bubble) :
  _calculate_chain_potential target l =
  Z.of_nat (length (filter (chain_neighbourb target) l)).
Proof.
  unfold _calculate_chain_potential.
  rewrite <- (Z.add_0_l (Z.of_nat _)). generalize 0%Z as c.
  induction l as [|b l IH]; intros c; cbn [fold_left filter]; [simpl; lia|].
  rewrite IH, <- (chain_test_int target b).
  destruct (negb _), (Rltb _ _); cbn [andb length]; lia.
Qed.


(** ** The height factor *)

Lemma fold_max_spec (l : list Z) (a : Z) :
  (forall v, In v (a :: l) -> (v <= fold_left Z.max l a)%Z) /\
  In (fold_left Z.max l a) (a :: l).
Proof.
  revert a. induction l as [|b l IH]; intros a; cbn [fold_left].
  - split; [intros v [<-|[]]; lia|now left].
  - destruct (IH (Z.max a b)) as [H1 H2]. split.
    + intros v [<-|[<-|Hv]].
      * specialize (H1 (Z.max a b) (or_introl eq_refl)). lia.
      * specialize (H1 (Z.max a b) (or_introl eq_refl)). lia.
      * apply H1. now right.
    + destruct H2 as [H2|H2]; [|now right; right].
      rewrite <- H2. destruct (Z.max_spec a b) as [[_ ->]|[_ ->]];
        [right; left|left]; reflexivity.
Qed.

(** [max_y] is the [y] of a lowest bubble of a board that has one. *)
Lemma max_y_of_spec (target : Bubble) (l : list Bubble) :
  l <> [] ->
  (forall b, In b l -> (y b <= max_y_of target l)%Z) /\
  (exists b, In b l /\ y b = max_y_of target l).
Proof.
  destruct l as [|a l]; [easy|]. intros _. unfold max_y_of.
  destruct (fold_max_spec (map y l) (y a)) as [H1 H2]. split.
  - intros b Hb. apply H1. change (y a :: map y l) with (map y (a :: l)).
    now apply in_map.
  - change (y a :: map y l) with (map y (a :: l)) in H2.
    apply in_map_iff in H2. destruct H2 as (b & Hb & Hin). now exists b.
Qed.

Lemma max_y_of_target (t t' : Bubble) (l : list Bubble) :
  l <> [] -> max_y_of t l = max_y_of t' l.
Proof. destruct l; easy. Qed.

(** The height factor at a concrete board. *)
Ltac hf_eval :=
  unfold height_factor;
  repeat match goal with
    | |- context [max_y_of ?t ?l] =>
        let v := eval vm_compute in (max_y_of t l) in
        change (max_y_of t l) with v
    | |- context [(?a <? ?b)%Z] =>
        let v := eval vm_compute in (a <? b)%Z in
        change (a <? b)%Z with v
    end;
  cbv iota; zconst.

(** C7, refuted on two boards with the same highest bubble, the target
    itself, at y = 100: its height factor is 3/4 on the board whose
    lowest bubble is at y = 400 and 1/2 on the board whose lowest bubble
    is at y = 200.  The reference of the normalisation is the lowest
    bubble, not the highest. *)
Lemma height_factor_follows_lowest :
  (forall b, In b board_deep -> (y top_bubble <= y b)%Z) /\
  (forall b, In b board_shallow -> (y top_bubble <= y b)%Z) /\
  In top_bubble board_deep /\ In top_bubble board_shallow /\
  height_factor top_bubble board_deep = 3 / 4 /\
  height_factor top_bubble board_shallow = 1 / 2.
Proof.
  repeat split.
  - intros b [<-|[<-|[]]]; simpl; lia.
  - intros b [<-|[<-|[]]]; simpl; lia.
  - now left.
  - now left.
  - hf_eval. lra.
  - hf_eval. lra.
Qed.

(** C7, amended.  The height factor of a target on the board is its
    vertical position normalised against the lowest (largest-y) bubble:
    with [m] the largest [y] of the board, it is [(m - y) / m] when [m]
    is positive and 0 otherwise.  It is 0 when the target is a lowest
    bubble; with [m] positive and [y] not negative it lies in [0, 1], is
    1 exactly at y = 0, and grows as the target stands higher. *)
Theorem height_factor_spec (target : Bubble) (all_bubbles : list Bubble) :
  In target all_bubbles ->
  let m := max_y_of target all_bubbles in
  ((forall b, In b all_bubbles -> (y b <= m)%Z) /\
   (exists b, In b all_bubbles /\ y b = m)) /\
  height_factor target all_bubbles =
    (if (0 <? m)%Z then (IZR m - IZR (y target)) / IZR m else 0) /\
  (y target = m -> height_factor target all_bubbles = 0) /\
  ((0 < m)%Z -> (0 <= y target)%Z ->
   0 <= height_factor target all_bubbles <= 1 /\
   (height_factor target all_bubbles = 1 <-> y target = 0%Z)) /\
  (forall other : Bubble,
     In other all_bubbles -> (0 < m)%Z -> (y other < y target)%Z ->
     height_factor target all_bubbles < height_factor other all_bubbles).
Proof.
  intros Hin m.
  assert (all_bubbles <> []) as Hne by (intros ->; destruct Hin).
  pose proof (max_y_of_spec target all_bubbles Hne) as Hm. fold m in Hm.
  assert (y target <= m)%Z as Hy by (now apply Hm).
  assert (height_factor target all_bubbles =
            (if (0 <? m)%Z then (IZR m - IZR (y target)) / IZR m else 0)) as Hf.
  { unfold height_factor. fold m. now rewrite minus_IZR. }
  split; [exact Hm|]. split; [exact Hf|]. rewrite Hf.
  apply IZR_le in Hy.
  split; [|split].
  - intros ->. destruct (0 <? m)%Z eqn:E; [|reflexivity].
    apply Z.ltb_lt, IZR_lt in E. field. lra.
  - intros Hpos H0. rewrite (proj2 (Z.ltb_lt 0 m) Hpos).
    apply IZR_lt in Hpos. apply IZR_le in H0.
    assert ((IZR m - IZR (y target)) / IZR m = 1 - IZR (y target) / IZR m) as ->
      by (field; lra).
    assert (0 <= IZR (y target) / IZR m <= 1) as Hq.
    { pose proof (Rinv_0_lt_compat _ Hpos) as Hi. unfold Rdiv. split.
      - apply Rmult_le_pos; lra.
      - replace 1 with (IZR m * / IZR m) by (field; lra).
        apply Rmult_le_compat_r; lra. }
    split; [lra|]. split.
    + intros H1. assert (IZR (y target) / IZR m = 0) as H2 by lra.
      apply eq_IZR. apply (Rmult_eq_reg_r (/ IZR m)).
      * unfold Rdiv in H2. rewrite H2. lra.
      * apply Rinv_neq_0_compat. lra.
    + intros ->. lra.
  - intros other Ho Hpos Hlt. unfold height_factor.
    rewrite (max_y_of_target other target _ Hne). fold m.
    rewrite (proj2 (Z.ltb_lt 0 m) Hpos). apply IZR_lt in Hpos, Hlt.
    rewrite minus_IZR. unfold Rdiv.
    apply Rmult_lt_compat_r; [apply Rinv_0_lt_compat; lra|lra].
Qed.

Lemma height_factor_spec_witness :
  In top_bubble board_deep /\
  height_factor top_bubble board_deep =
    (IZR 400 - IZR (y top_bubble)) / IZR 400.
Proof.
  assert (In top_bubble board_deep) as Hin by (now left).
  split; [exact Hin|].
  exact (proj1 (proj2 (height_factor_spec top_bubble board_deep Hin))).
Defined.

(** ** Scoring *)

Lemma evaluate_shot_sum (target : Bubble) (l : list Bubble) (direct : bool) :
  _evaluate_shot target l direct =
  IZR (10 - hit_count target) * 10 + height_factor target l * 20
  + (if direct then 15 else 0) + IZR (_calculate_chain_potential target l) * 5.
Proof.
  unfold _evaluate_shot, score_of. rewrite !mult_IZR.
  destruct direct; lra.
Qed.

(** The score at a concrete board. *)
Ltac score_eval :=
  rewrite evaluate_shot_sum, chain_potential_count;
  match goal with
  | |- context [Z.of_nat ?n] =>
      let v := eval vm_compute in (Z.of_nat n) in change (Z.of_nat n) with v
  end;
  hf_eval; lra.

(** The difference of two scores, term by term. *)
Lemma evaluate_shot_difference (t t' : Bubble) (l l' : list Bubble)
  (direct : bool) :
  _evaluate_shot t' l' direct - _evaluate_shot t l direct =
  10 * IZR (hit_count t - hit_count t')
  + 20 * (height_factor t' l' - height_factor t l)
  + 5 * IZR (_calculate_chain_potential t' l' - _calculate_chain_potential t l).
Proof. rewrite !evaluate_shot_sum, !minus_IZR. lra. Qed.

Lemma chain_neighbourb_self (t : Bubble) : chain_neighbourb t t = false.
Proof. unfold chain_neighbourb. now rewrite Bubble_eqb_refl. Qed.

Lemma chain_filter_skip (t : Bubble) (before after : list Bubble) :
  filter (chain_neighbourb t) (before ++ t :: after) =
  filter (chain_neighbourb t) (before ++ after).
Proof.
  rewrite !filter_app. cbn [filter]. now rewrite chain_neighbourb_self.
Qed.

(** The chain potential does not see the target's hit count when no
    other bubble of the board has the old or the new value of the
    target. *)
Lemma chain_potential_unchanged (t t' : Bubble) (before after : list Bubble) :
  x t' = x t -> y t' = y t -> radius t' = radius t ->
  (forall b, In b (before ++ after) -> b <> t /\ b <> t') ->
  _calculate_chain_potential t' (before ++ t' :: after) =
  _calculate_chain_potential t (before ++ t :: after).
Proof.
  intros Hx Hy Hr Hl.
  rewrite !chain_potential_count, !chain_filter_skip.
  do 2 f_equal. apply filter_ext_in.
  intros b Hb. destruct (Hl b Hb) as [H1 H2].
  unfold chain_neighbourb. rewrite Hx, Hy, Hr. f_equal.
  destruct (Bubble_eqb b t') eqn:E'; [now apply Bubble_eqb_eq in E'|].
  destruct (Bubble_eqb b t) eqn:E; [now apply Bubble_eqb_eq in E|].
  reflexivity.
Qed.

(** C6, refuted at a target with two hits left among four bubbles that
    have its position, radius and colour and one hit left.  They are its
    neighbours, and the score is 115; with one hit left the target is
    equal to them by value, they no longer count, and the score is 105.
    Against the unchanged list the score with one hit left is 110. *)
Lemma scoring_falls_with_fewer_hits :
  (hit_count weak < hit_count tough)%Z /\
  (x weak, y weak, radius weak, color weak) =
    (x tough, y tough, radius tough, color tough) /\
  _evaluate_shot tough (tough :: crowd) true = 115 /\
  _evaluate_shot weak (weak :: crowd) true = 105 /\
  _evaluate_shot weak (tough :: crowd) true = 110.
Proof.
  split; [reflexivity|]. split; [reflexivity|].
  split; [|split]; score_eval.
Qed.

(** C6, amended.  With the height factor and the chain potential
    unchanged, fewer hits left score strictly higher; with all else
    fixed, a larger height factor scores strictly higher; and a direct
    shot scores strictly higher than the bounced shot at the same target
    on the same board. *)
Theorem scoring_monotonic (target target' : Bubble)
  (all_bubbles all_bubbles' : list Bubble) (direct : bool) :
  (hit_count target' < hit_count target)%Z ->
  height_factor target' all_bubbles' = height_factor target all_bubbles ->
  _calculate_chain_potential target' all_bubbles' =
    _calculate_chain_potential target all_bubbles ->
  _evaluate_shot target all_bubbles direct <
    _evaluate_shot target' all_bubbles' direct /\
  (forall (hits : Z) (height height' : R) (chain : Z),
     height < height' ->
     score_of hits height direct chain < score_of hits height' direct chain) /\
  _evaluate_shot target all_bubbles false <
    _evaluate_shot target all_bubbles true.
Proof.
  intros Hh Hf Hc. split; [|split].
  - pose proof (evaluate_shot_difference target target' all_bubbles
                  all_bubbles' direct) as H.
    rewrite Hf, Hc, Z.sub_diag in H.
    assert (1 <= hit_count target - hit_count target')%Z as H1 by lia.
    apply IZR_le in H1. lra.
  - intros hits height height' chain H. unfold score_of.
    destruct direct; lra.
  - rewrite !evaluate_shot_sum. lra.
Qed.

Lemma scoring_monotonic_witness :
  _evaluate_shot test_first test_bubbles true <
    _evaluate_shot test_first_weaker test_bubbles_weaker true.
Proof.
  refine (proj1 (scoring_monotonic test_first test_first_weaker test_bubbles
                   test_bubbles_weaker true _ _ _)).
  - simpl. lia.
  - reflexivity.
  - rewrite !chain_potential_count. reflexivity.
Defined.

(** ** Selection *)

Lemma try_bubble_shots (gs : GameState) (best : option (R * Bubble) * R)
  (b : Bubble) :
  try_bubble gs best b = fold_left keep_shot (shots_at gs b) best.
Proof.
  unfold try_bubble, shots_at. rewrite fold_left_app.
  set (best1 := match _calculate_direct_shot _ _ with
                | Some _ => _ | None => _ end).
  set (best2 := fold_left keep_shot
                  match _calculate_direct_shot _ _ with
                  | Some _ => _ | None => _ end best).
  assert (best1 = best2) as ->.
  { subst best1 best2. now destruct (_calculate_direct_shot _ _). }
  generalize best2. induction (_calculate_bounced_shots gs b) as [|s l IH];
    intros acc; [reflexivity|]. cbn [fold_left map]. apply IH.
Qed.

Lemma best_shot_unfold (gs : GameState) :
  calculate_best_shot gs =
  fst (fold_left (try_bubble gs) (sorted_bubbles (bubbles gs)) (None, -1)).
Proof.
  unfold calculate_best_shot. now destruct (bubbles gs).
Qed.

Lemma fold_left_cons {A B : Type} (f : A -> B -> A) (b : B) (l : list B)
  (a : A) :
  fold_left f (b :: l) a = fold_left f l (f a b).
Proof. reflexivity. Qed.

Lemma flat_map_cons' {A B : Type} (g : A -> list B) (a : A) (l : list A) :
  flat_map g (a :: l) = g a ++ flat_map g l.
Proof. reflexivity. Qed.

Lemma try_bubble_fold (gs : GameState) (l : list Bubble) :
  forall acc : option (R * Bubble) * R,
    fold_left (try_bubble gs) l acc =
    fold_left keep_shot (flat_map (shots_at gs) l) acc.
Proof.
  induction l as [|a l IH]; intros acc; [reflexivity|].
  rewrite fold_left_cons, flat_map_cons', fold_left_app.
  rewrite <- (try_bubble_shots gs acc a). apply IH.
Qed.

(** The planner is the running best over the candidates. *)
Lemma best_shot_fold (gs : GameState) :
  calculate_best_shot gs = fst (fold_left keep_shot (candidates gs) (None, -1)).
Proof.
  rewrite best_shot_unfold. unfold candidates. now rewrite try_bubble_fold.
Qed.

(** What the running best holds after a list of shots: the state it
    started from when no score exceeded it, and otherwise the first shot
    of the highest score. *)
Lemma keep_shot_spec (l : list (R * Bubble * R)) :
  forall (best : option (R * Bubble)) (s : R),
    (fold_left keep_shot l (best, s) = (best, s) /\
     forall c, In c l -> snd c <= s) \/
    (exists l1 a b sc l2,
       l = l1 ++ (a, b, sc) :: l2 /\
       fold_left keep_shot l (best, s) = (Some (a, b), sc) /\
       s < sc /\
       (forall c, In c l1 -> snd c < sc) /\
       (forall c, In c l2 -> snd c <= sc)).
Proof.
  induction l as [|[[a b] sc] l IH]; intros best s.
  - left. split; [reflexivity|intros c []].
  - rewrite fold_left_cons.
    assert (keep_shot (best, s) (a, b, sc) =
              if Rltb s sc then (Some (a, b), sc) else (best, s)) as ->
      by reflexivity.
    destruct (Rltb s sc) eqn:E.
    + apply Rltb_true in E. right.
      destruct (IH (Some (a, b)) sc)
        as [[H1 H2]|(l1 & a' & b' & sc' & l2 & Hl & Hf & Hs & H1 & H2)].
      * exists [], a, b, sc, l.
        split; [reflexivity|]. split; [exact H1|]. split; [exact E|].
        split; [intros c []|exact H2].
      * exists ((a, b, sc) :: l1), a', b', sc', l2. subst l.
        split; [reflexivity|]. split; [exact Hf|]. split; [lra|].
        split; [|exact H2].
        intros c [<-|Hc]; [exact Hs|now apply H1].
    + apply Rltb_false in E.
      destruct (IH best s)
        as [[H1 H2]|(l1 & a' & b' & sc' & l2 & Hl & Hf & Hs & H1 & H2)].
      * left. split; [exact H1|]. intros c [<-|Hc]; [exact E|now apply H2].
      * right. exists ((a, b, sc) :: l1), a', b', sc', l2. subst l.
        split; [reflexivity|]. split; [exact Hf|]. split; [exact Hs|].
        split; [|exact H2].
        intros c [<-|Hc]; [cbn [snd]; lra|now apply H1].
Qed.

Lemma keep_shot_unchanged (l : list (R * Bubble * R))
  (best : option (R * Bubble)) (s : R) :
  (forall c, In c l -> snd c <= s) ->
  fold_left keep_shot l (best, s) = (best, s).
Proof.
  intros H.
  destruct (keep_shot_spec l best s)
    as [[H1 _]|(l1 & a & b & sc & l2 & -> & _ & Hs & _)]; [exact H1|].
  specialize (H (a, b, sc) (in_elt _ _ _)). cbn [snd] in H. lra.
Qed.

(** The planner returns [None] exactly when no candidate scores above
    the initial best score, -1. *)
Lemma best_shot_none (gs : GameState) :
  calculate_best_shot gs = None <->
  forall c, In c (candidates gs) -> snd c <= -1.
Proof.
  rewrite best_shot_fold.
  destruct (keep_shot_spec (candidates gs) None (-1))
    as [[H1 H2]|(l1 & a & b & sc & l2 & Hl & Hf & Hs & _)].
  - rewrite H1. cbn [fst]. tauto.
  - rewrite Hf. cbn [fst]. split; [discriminate|]. intros H.
    specialize (H (a, b, sc)). rewrite Hl in H.
    specialize (H (in_elt _ _ _)). cbn [snd] in H. lra.
Qed.

(** A shot returned is a candidate of the highest score, the first of
    that score. *)
Lemma best_shot_some (gs : GameState) (a : R) (b : Bubble) :
  calculate_best_shot gs = Some (a, b) ->
  exists sc l1 l2,
    candidates gs = l1 ++ (a, b, sc) :: l2 /\ -1 < sc /\
    (forall c, In c l1 -> snd c < sc) /\
    (forall c, In c l2 -> snd c <= sc).
Proof.
  rewrite best_shot_fold.
  destruct (keep_shot_spec (candidates gs) None (-1))
    as [[H1 H2]|(l1 & a' & b' & sc & l2 & Hl & Hf & Hs & H1 & H2)].
  - rewrite H1. discriminate.
  - rewrite Hf. cbn [fst]. intros [= <- <-]. now exists sc, l1, l2.
Qed.

(** Where the candidates come from. *)
Lemma shots_at_spec (gs : GameState) (b : Bubble) (c : R * Bubble * R) :
  In c (shots_at gs b) <->
  (_calculate_direct_shot (shooter_position gs) b = Some (fst (fst c)) /\
   c = (fst (fst c), b, _evaluate_shot b (bubbles gs) true)) \/
  (exists n, In (fst (fst c), n) (_calculate_bounced_shots gs b) /\
             c = (fst (fst c), b, _evaluate_shot b (bubbles gs) false)).
Proof.
  unfold shots_at. rewrite in_app_iff, in_map_iff.
  generalize (_evaluate_shot b (bubbles gs) true) as st.
  generalize (_evaluate_shot b (bubbles gs) false) as sf.
  generalize (_calculate_bounced_shots gs b) as shots.
  generalize (_calculate_direct_shot (shooter_position gs) b) as direct.
  intros direct shots sf st. split.
  - intros [H|([a n] & Hc & H)].
    + left. destruct direct as [a|]; [|destruct H].
      destruct H as [H|[]]. subst c. split; reflexivity.
    + right. exists n. subst c. split; [exact H|reflexivity].
  - intros [[H1 H2]|(n & H1 & H2)].
    + left. subst direct. left. exact (eq_sym H2).
    + right. exists (fst (fst c), n). split; [exact (eq_sym H2)|exact H1].
Qed.

Lemma candidates_spec (gs : GameState) (c : R * Bubble * R) :
  In c (candidates gs) <->
  exists b, In b (bubbles gs) /\ In c (shots_at gs b).
Proof.
  unfold candidates. rewrite in_flat_map. split; intros (b & Hb & Hc);
    exists b; (split; [|exact Hc]).
  - now apply (Permutation_in _ (sorted_bubbles_perm _)).
  - now apply (Permutation_in _ (Permutation_sym (sorted_bubbles_perm _))).
Qed.

Lemma shots_at_nil (gs : GameState) (b : Bubble) :
  shots_at gs b = [] <->
  _calculate_direct_shot (shooter_position gs) b = None /\
  _calculate_bounced_shots gs b = [].
Proof.
  unfold shots_at.
  generalize (_evaluate_shot b (bubbles gs) true) as st.
  generalize (_evaluate_shot b (bubbles gs) false) as sf.
  generalize (_calculate_bounced_shots gs b) as shots.
  generalize (_calculate_direct_shot (shooter_position gs) b) as direct.
  intros [a|] [|s l] sf st; split; try discriminate; try (intros [? ?]; discriminate).
  - intros _. split; reflexivity.
  - intros _. reflexivity.
Qed.

Lemma candidates_nil (gs : GameState) :
  candidates gs = [] <-> no_viable_shot gs.
Proof.
  unfold no_viable_shot. split.
  - intros H b Hb. apply shots_at_nil.
    destruct (shots_at gs b) as [|c l] eqn:E; [reflexivity|]. exfalso.
    assert (In c (candidates gs)) as Hin.
    { apply candidates_spec. exists b. split; [exact Hb|].
      rewrite E. apply in_eq. }
    rewrite H in Hin. destruct Hin.
  - intros H. destruct (candidates gs) as [|c l] eqn:E; [reflexivity|].
    exfalso.
    assert (In c (candidates gs)) as Hc by (rewrite E; apply in_eq).
    apply candidates_spec in Hc. destruct Hc as (b & Hb & Hc).
    rewrite (proj2 (shots_at_nil gs b) (H b Hb)) in Hc. destruct Hc.
Qed.

(** With at most ten hits left the score of a bubble of the board is not
    negative. *)
Lemma evaluate_shot_nonneg (b : Bubble) (l : list Bubble) (direct : bool) :
  In b l -> (hit_count b <= 10)%Z -> 0 <= _evaluate_shot b l direct.
Proof.
  intros Hin Hh. rewrite evaluate_shot_sum, chain_potential_count.
  assert (l <> []) as Hne by (intros ->; destruct Hin).
  assert (0 <= height_factor b l) as Hf.
  { unfold height_factor.
    pose proof (proj1 (max_y_of_spec b l Hne) b Hin) as Hy.
    destruct (0 <? max_y_of b l)%Z eqn:E; [|lra].
    apply Z.ltb_lt, IZR_lt in E.
    assert (0 <= max_y_of b l - y b)%Z as H0 by lia. apply IZR_le in H0.
    unfold Rdiv. apply Rmult_le_pos; [exact H0|].
    left. now apply Rinv_0_lt_compat. }
  assert (0 <= 10 - hit_count b)%Z as H1 by lia. apply IZR_le in H1.
  pose proof (IZR_le _ _ (Zle_0_nat (length (filter (chain_neighbourb b) l)))).
  destruct direct; lra.
Qed.

Lemma candidates_single (gs : GameState) (b : Bubble) :
  bubbles gs = [b] -> candidates gs = shots_at gs b.
Proof.
  intros H. unfold candidates. rewrite H.
  change (sorted_bubbles [b]) with [b].
  rewrite flat_map_cons'. apply app_nil_r.
Qed.

(** The angles of the sweep. *)
Lemma bounced_shots_angles (gs : GameState) (target : Bubble)
  (shot : R * nat) :
  In shot (_calculate_bounced_shots gs target) ->
  exists d : Z, In d (range (-80) 81 5) /\ fst shot = radians (IZR d).
Proof.
  unfold _calculate_bounced_shots.
  generalize (range (-80) 81 5) as sweep. intros sweep.
  assert (forall l acc,
            (forall s, In s acc ->
               exists d, In d sweep /\ fst s = radians (IZR d)) ->
            (forall d, In d l -> In d sweep) ->
            In shot
              (fold_left
                 (fun bounced_shots angle_deg =>
                    let angle := radians (IZR angle_deg) in
                    match _simulate_trajectory (shooter_position gs) angle
                            (game_area gs) target with
                    | Some trajectory =>
                        if negb (length trajectory =? 0)%nat
                           && _trajectory_hits_target trajectory target
                        then bounced_shots ++ [(angle, length trajectory)]
                        else bounced_shots
                    | None => bounced_shots
                    end) l acc) ->
            exists d, In d sweep /\ fst shot = radians (IZR d)) as H.
  { induction l as [|d l IH]; intros acc Hacc Hl.
    - apply Hacc.
    - rewrite fold_left_cons. apply IH.
      + cbv zeta.
        destruct (_simulate_trajectory _ _ _ _) as [traj|]; [|exact Hacc].
        destruct (_ && _); [|exact Hacc].
        intros s Hs. apply in_app_or in Hs. destruct Hs as [Hs|[<-|[]]].
        * now apply Hacc.
        * exists d. split; [apply Hl, in_eq|reflexivity].
      + intros d' Hd'. apply Hl. now right. }
  apply H; [intros s []|tauto].
Qed.

Lemma sweep_angle_bound (d : Z) :
  In d (range (-80) 81 5) -> - (PI / 2) <= radians (IZR d) <= PI / 2.
Proof.
  intros H. assert (-80 <= d <= 80)%Z as [H1 H2].
  { rewrite range_sweep in H.
    repeat (destruct H as [<-|H]; [lia|]). destruct H. }
  apply IZR_le in H1, H2. pose proof PI_RGT_0. unfold radians. nra.
Qed.

(** A shot returned aims at a bubble of the snapshot, within a quarter
    turn of the vertical. *)
Lemma best_shot_sound (gs : GameState) (a : R) (b : Bubble) :
  calculate_best_shot gs = Some (a, b) ->
  In b (bubbles gs) /\ - (PI / 2) <= a <= PI / 2.
Proof.
  intros H. apply best_shot_some in H.
  destruct H as (sc & l1 & l2 & Hl & _).
  assert (In (a, b, sc) (candidates gs)) as Hin
    by (rewrite Hl; apply in_elt).
  apply candidates_spec in Hin. destruct Hin as (b' & Hb' & Hin).
  apply shots_at_spec in Hin. cbn [fst snd] in Hin.
  destruct Hin as [[Hd [= <- _]]|(n & Hn & [= <- _])]; (split; [exact Hb'|]).
  - destruct (shooter_position gs) as [sx sy].
    destruct (Z.lt_ge_cases (y b) sy) as [Hy|Hy].
    + rewrite (direct_shot_above _ _ _ Hy) in Hd. injection Hd as <-.
      pose proof (atan_bound (IZR (x b - sx) / - IZR (y b - sy))). lra.
    + now rewrite (direct_shot_not_above _ _ _ Hy) in Hd.
  - apply bounced_shots_angles in Hn. destruct Hn as (d & Hd & Ha).
    cbn [fst] in Ha. rewrite Ha. now apply sweep_angle_bound.
Qed.






(** The scenario of [test_aiming]: a shot is found, at one of the three
    bubbles, within a quarter turn of the vertical. *)
Example test_aiming_finds_shot :
  exists (a : R) (b : Bubble),
    calculate_best_shot test_state = Some (a, b) /\
    In b test_bubbles /\ - (PI / 2) <= a <= PI / 2.
Proof.
  destruct (calculate_best_shot test_state) as [[a b]|] eqn:E.
  - exists a, b. split; [reflexivity|].
    exact (best_shot_sound test_state a b E).
  - exfalso. pose proof (proj1 (best_shot_none test_state) E) as E'.
    clear E. rename E' into E.
    specialize (E (0, lone, _evaluate_shot lone test_bubbles true)).
    assert (In lone test_bubbles) as Hin by (right; right; left; reflexivity).
    pose proof (evaluate_shot_nonneg lone test_bubbles true Hin) as H0.
    cbn [snd] in E. enough (_evaluate_shot lone test_bubbles true <= -1) as H.
    { assert (hit_count lone <= 10)%Z as Hh by (simpl; lia).
      specialize (H0 Hh). lra. }
    apply E. apply candidates_spec. exists lone. split; [exact Hin|].
    apply shots_at_spec. left. cbn [fst].
    change (bubbles test_state) with test_bubbles.
    split; [|reflexivity].
    apply direct_shot_vertical; [simpl; lia|reflexivity].
Qed.

(** * Further properties of the planner *)

(** ** The aim point *)

Lemma sin_cos_quarter (a : R) :
  -1 <= sin a <= 1 /\ -1 <= cos a <= 1 /\
  (- (PI / 2) <= a <= PI / 2 -> 0 <= cos a) /\
  (0 <= a <= PI / 2 -> 0 <= sin a) /\
  (- (PI / 2) <= a <= 0 -> sin a <= 0).
Proof.
  pose proof PI_RGT_0 as Hpi.
  split; [apply SIN_bound|]. split; [apply COS_bound|]. split; [|split].
  - intros [H1 H2]. apply cos_ge_0; lra.
  - intros [H1 H2]. apply sin_ge_0; lra.
  - intros [H1 H2]. assert (0 <= sin (- a)) as H by (apply sin_ge_0; lra).
    rewrite sin_neg in H. lra.
Qed.

(** X1.  The aim point lies in the square of half-side [distance] around
    the shooter; for an angle within a quarter turn of the vertical it is
    not below the shooter, and it is on the side the angle points to. *)
Theorem aim_point_bounds (sx sy : Z) (angle : R) (distance : Z) :
  (0 <= distance)%Z ->
  let p := get_mouse_position_for_angle (sx, sy) angle distance in
  (sx - distance <= fst p <= sx + distance)%Z /\
  (sy - distance <= snd p <= sy + distance)%Z /\
  (- (PI / 2) <= angle <= PI / 2 -> (snd p <= sy)%Z) /\
  (0 <= angle <= PI / 2 -> (sx <= fst p)%Z) /\
  (- (PI / 2) <= angle <= 0 -> (fst p <= sx)%Z).
Proof.
  intros Hd. apply IZR_le in Hd. cbn zeta.
  unfold get_mouse_position_for_angle. cbn [fst snd].
  destruct (sin_cos_quarter angle) as (Hs & Hc & Hc0 & Hs0 & Hs1).
  repeat split.
  - apply int_lower. rewrite minus_IZR. nra.
  - apply int_upper. rewrite plus_IZR. nra.
  - apply int_lower. rewrite minus_IZR. nra.
  - apply int_upper. rewrite plus_IZR. nra.
  - intros H. specialize (Hc0 H). apply int_upper. nra.
  - intros H. specialize (Hs0 H). apply int_lower. nra.
  - intros H. specialize (Hs1 H). apply int_upper. nra.
Qed.

Lemma aim_point_bounds_witness :
  (snd (get_mouse_position_for_angle (400, 500)%Z 0 200) <= 500)%Z.
Proof.
  refine (proj1 (proj2 (proj2 (aim_point_bounds 400 500 0 200 _))) _).
  - lia.
  - pose proof PI_RGT_0. lra.
Defined.




(** ** The direct shot and the displacement *)

(** X3.  The direct shot depends on the displacement from the shooter to
    the target only, its sign is the side of the target, and the mirror
    image of the target about the vertical through the shooter has the
    opposite angle. *)
Theorem direct_shot_displacement (sx sy : Z) (target : Bubble) :
  (forall (sx' sy' : Z) (target' : Bubble),
     (x target' - sx' = x target - sx)%Z ->
     (y target' - sy' = y target - sy)%Z ->
     _calculate_direct_shot (sx', sy') target' =
     _calculate_direct_shot (sx, sy) target) /\
  (forall mirror : Bubble,
     (x mirror - sx = - (x target - sx))%Z -> y mirror = y target ->
     _calculate_direct_shot (sx, sy) mirror =
     option_map Ropp (_calculate_direct_shot (sx, sy) target)) /\
  (forall a : R,
     _calculate_direct_shot (sx, sy) target = Some a ->
     (0 < a <-> (sx < x target)%Z) /\ (a < 0 <-> (x target < sx)%Z)).
Proof.
  split; [|split].
  - intros sx' sy' target' Hx Hy.
    destruct (Z.lt_ge_cases (y target) sy) as [H|H].
    + rewrite (direct_shot_above _ _ _ H), direct_shot_above by lia.
      now rewrite Hx, Hy.
    + rewrite (direct_shot_not_above _ _ _ H), direct_shot_not_above by lia.
      reflexivity.
  - intros mirror Hx Hy.
    destruct (Z.lt_ge_cases (y target) sy) as [H|H].
    + rewrite (direct_shot_above _ _ _ H), direct_shot_above by lia.
      cbn [option_map]. rewrite Hx, Hy, <- atan_opp, opp_IZR.
      f_equal. f_equal. field.
      apply not_0_IZR. lia.
    + rewrite (direct_shot_not_above _ _ _ H), direct_shot_not_above by lia.
      reflexivity.
  - intros a Ha.
    destruct (Z.lt_ge_cases (y target) sy) as [H|H];
      [|now rewrite (direct_shot_not_above _ _ _ H) in Ha].
    rewrite (direct_shot_above _ _ _ H) in Ha. injection Ha as <-.
    assert (0 < - IZR (y target - sy)) as Hq
      by (rewrite <- opp_IZR; apply IZR_lt; lia).
    set (q := - IZR (y target - sy)) in *.
    set (dx := IZR (x target - sx)).
    assert (forall v, 0 < atan v <-> 0 < v) as Hp.
    { intros v. split; intros Hv.
      - destruct (Rtotal_order 0 v) as [Hlt | [Heq | Hgt]]; [exact Hlt| |].
        + rewrite <- Heq, atan_0 in Hv. lra.
        + apply atan_increasing in Hgt. rewrite atan_0 in Hgt. lra.
      - apply atan_increasing in Hv. now rewrite atan_0 in Hv. }
    assert (forall v, atan v < 0 <-> v < 0) as Hn.
    { intros v. specialize (Hp (- v)). rewrite atan_opp in Hp. lra. }
    assert (0 < dx / q <-> 0 < dx) as Hdp.
    { split; intros Hv.
      - apply (Rmult_lt_compat_r q) in Hv; [|exact Hq].
        unfold Rdiv in Hv. rewrite Rmult_assoc, Rinv_l in Hv; lra.
      - now apply Rdiv_lt_0_compat. }
    assert (dx / q < 0 <-> dx < 0) as Hdn.
    { assert (- dx / q = - (dx / q)) as He by (field; lra).
      split; intros Hv.
      - assert (0 < - dx / q) as Hv' by lra.
        apply (Rmult_lt_compat_r q) in Hv'; [|exact Hq].
        unfold Rdiv in Hv'. rewrite Rmult_assoc, Rinv_l in Hv'; lra.
      - assert (0 < - dx / q) by (apply Rdiv_lt_0_compat; lra). lra. }
    rewrite Hp, Hn, Hdp, Hdn. subst dx. split; split; intros Hv.
    + apply lt_IZR in Hv. lia.
    + apply IZR_lt. lia.
    + apply lt_IZR in Hv. lia.
    + apply IZR_lt. lia.
Qed.

(** ** The hit test *)


(** ** The simulator: the shape of its result *)

Lemma sim_init_trajectory (start_pos : Z * Z) (angle : R) :
  trajectory (sim_init start_pos angle) = [start_pos].
Proof. now destruct start_pos. Qed.

Lemma simulate_some (start_pos : Z * Z) (angle : R) ga target
  (traj : list (Z * Z)) :
  _simulate_trajectory start_pos angle ga target = Some traj ->
  exists (s : Sim) (e : Exit),
    sim_loop point_cap ga target (sim_init start_pos angle) = Some (s, e) /\
    trajectory s = traj /\ (2 <= length traj)%nat.
Proof.
  unfold _simulate_trajectory.
  destruct (sim_loop _ _ _ _) as [[s e]|]; [|discriminate].
  cbn [sim_result]. destruct (1 <? length (trajectory s))%nat eqn:E;
    [|discriminate].
  intros [= <-]. exists s, e. apply Nat.ltb_lt in E. repeat split. lia.
Qed.


(** X5.  A trajectory the simulator returns starts at the launch point and
    has between 2 and 1001 points. *)
Theorem trajectory_shape (start_pos : Z * Z) (angle : R)
  (ga : Z * Z * Z * Z) (target : Bubble) (traj : list (Z * Z)) :
  _simulate_trajectory start_pos angle ga target = Some traj ->
  exists rest : list (Z * Z),
    traj = start_pos :: rest /\ (1 <= length rest <= point_cap)%nat.
Proof.
  intros H. apply simulate_some in H. destruct H as (s & e & H & <- & Hl).
  destruct (sim_loop_prefix _ _ _ _ _ _ H) as [added Ha].
  pose proof (sim_loop_length _ _ _ _ _ _ H) as Hc.
  rewrite sim_init_trajectory in Ha, Hc.
  rewrite Ha in *. exists added. split; [reflexivity|].
  cbn [app length] in *. unfold point_cap in *. lia.
Qed.

Lemma trajectory_shape_witness :
  exists rest : list (Z * Z),
    [(0, 500); (0, 492); (0, 484); (0, 476); (0, 468)]%Z = wall_origin :: rest /\
    (1 <= length rest <= point_cap)%nat.
Proof.
  exact (trajectory_shape wall_origin 0 wall_area far_target _ wall_result).
Defined.

(** ** The simulator: the target is a hint to stop early *)

Lemma sim_body_target ga (t1 t2 : Bubble) (s : Sim) :
  fst (sim_body ga t1 s) = fst (sim_body ga t2 s).
Proof.
  destruct ga as [[[xm ym] width] height]. unfold sim_body.
  destruct (Rleb (IZR (ym + height)) _); [reflexivity|].
  repeat match goal with
    | |- context [if ?c then _ else _] => destruct c
    end; reflexivity.
Qed.

Lemma sim_loop_target ga (t1 t2 : Bubble) (fuel : nat) :
  forall (s s1 s2 : Sim) (e1 e2 : Exit),
    sim_loop fuel ga t1 s = Some (s1, e1) ->
    sim_loop fuel ga t2 s = Some (s2, e2) ->
    prefix_of (trajectory s1) (trajectory s2) \/
    prefix_of (trajectory s2) (trajectory s1).
Proof.
  induction fuel as [|fuel IH]; intros s s1 s2 e1 e2; cbn [sim_loop];
    destruct (sim_cond ga s); try discriminate;
    try (intros [= <- <-] [= <- <-]; left; exists []; now rewrite app_nil_r).
  pose proof (sim_body_target ga t1 t2 s) as Hb.
  destruct (sim_body ga t1 s) as [s' o1], (sim_body ga t2 s) as [s'' o2].
  cbn [fst] in Hb. subst s''.
  destruct o1 as [x1|], o2 as [x2|].
  - intros [= <- <-] [= <- <-]. left. exists []. now rewrite app_nil_r.
  - intros [= <- <-] H2. left. exact (sim_loop_prefix _ _ _ _ _ _ H2).
  - intros H1 [= <- <-]. right. exact (sim_loop_prefix _ _ _ _ _ _ H1).
  - apply IH.
Qed.

(** X6.  The target only stops a simulation early: for two targets, from
    one launch point at one angle in one play area, the simulator returns
    [None] for both or for neither, and of two trajectories one is the
    beginning of the other. *)
Theorem simulation_target_is_hint (start_pos : Z * Z) (angle : R)
  (ga : Z * Z * Z * Z) (t1 t2 : Bubble) :
  (_simulate_trajectory start_pos angle ga t1 = None <->
   _simulate_trajectory start_pos angle ga t2 = None) /\
  (forall traj1 traj2 : list (Z * Z),
     _simulate_trajectory start_pos angle ga t1 = Some traj1 ->
     _simulate_trajectory start_pos angle ga t2 = Some traj2 ->
     prefix_of traj1 traj2 \/ prefix_of traj2 traj1).
Proof.
  split.
  - destruct start_pos as [sx sy]. rewrite !simulate_none_iff. tauto.
  - intros traj1 traj2 H1 H2.
    apply simulate_some in H1, H2.
    destruct H1 as (s1 & e1 & H1 & <- & _), H2 as (s2 & e2 & H2 & <- & _).
    exact (sim_loop_target _ _ _ _ _ _ _ _ _ H1 H2).
Qed.

(** ** The simulator: the early stop at the target *)

Lemma sim_body_close ga target (s s' : Sim) :
  sim_body ga target s = (s', Some CloseToTarget) ->
  exists x2 y1 : R,
    trajectory s' = trajectory s ++ [(int x2, int y1)] /\
    Rabs (x2 - IZR (x target)) < IZR (radius target) /\
    Rabs (y1 - IZR (y target)) < IZR (radius target).
Proof.
  destruct ga as [[[xm ym] width] height]. unfold sim_body. intros H.
  destruct (Rleb (IZR (ym + height)) _) in H; [discriminate|].
  match type of H with
  | context [mkSim ?x2 ?y1 _ _ (_ ++ [_]) _] => exists x2, y1
  end.
  destruct (Rltb (Rabs _) _) eqn:E1 in H; cbn [andb] in H.
  - destruct (Rltb (Rabs _) _) eqn:E2 in H.
    + injection H as <-. apply Rltb_true in E1, E2. now repeat split.
    + destruct (point_cap <? _)%nat in H; discriminate.
  - destruct (point_cap <? _)%nat in H; discriminate.
Qed.

Lemma int_near (r : R) (c k : Z) :
  Rabs (r - IZR c) < IZR k -> (Z.abs (int r - c) <= k)%Z.
Proof.
  intros H. apply Rabs_def2 in H. destruct H as [H1 H2].
  assert (c - k <= int r)%Z by (apply int_lower; rewrite minus_IZR; lra).
  assert (int r <= c + k)%Z by (apply int_upper; rewrite plus_IZR; lra).
  lia.
Qed.

Lemma sim_loop_close ga target (fuel : nat) :
  forall s s' : Sim,
    sim_loop fuel ga target s = Some (s', CloseToTarget) ->
    exists (before : list (Z * Z)) (px py : Z),
      trajectory s' = before ++ [(px, py)] /\
      (length (trajectory s) <= length before)%nat /\
      (Z.abs (px - x target) <= radius target)%Z /\
      (Z.abs (py - y target) <= radius target)%Z.
Proof.
  induction fuel as [|fuel IH]; intros s s'; cbn [sim_loop];
    destruct (sim_cond ga s); try discriminate.
  destruct (sim_body ga target s) as [s1 [e1|]] eqn:Hb.
  - intros [= <- ->]. apply sim_body_close in Hb.
    destruct Hb as (x2 & y1 & Ht & Hx & Hy).
    exists (trajectory s), (int x2), (int y1).
    split; [exact Ht|]. split; [apply Nat.le_refl|].
    split; now apply int_near.
  - intros H. destruct (IH _ _ H) as (before & px & py & Ht & Hl & Hx & Hy).
    exists before, px, py. apply sim_body_length in Hb.
    split; [exact Ht|]. split; [lia|]. now split.
Qed.

(** X7.  When the loop stops because the projectile is close to the
    target, the simulator returns the trajectory, and its last point lies
    in the square of half-side [radius] around the centre of the target,
    so within the square root of 2 times the radius of it. *)
Theorem close_exit_point (start_pos : Z * Z) (angle : R)
  (ga : Z * Z * Z * Z) (target : Bubble) (s : Sim) :
  sim_loop point_cap ga target (sim_init start_pos angle)
    = Some (s, CloseToTarget) ->
  exists (before : list (Z * Z)) (px py : Z),
    _simulate_trajectory start_pos angle ga target
      = Some (before ++ [(px, py)]) /\
    (Z.abs (px - x target) <= radius target)%Z /\
    (Z.abs (py - y target) <= radius target)%Z /\
    ((px - x target) ^ 2 + (py - y target) ^ 2
     <= 2 * (radius target * radius target))%Z.
Proof.
  intros H.
  destruct (sim_loop_close _ _ _ _ _ H)
    as (before & px & py & Ht & Hl & Hx & Hy).
  rewrite sim_init_trajectory in Hl. cbn [length] in Hl.
  exists before, px, py.
  split; [|split; [exact Hx|split; [exact Hy|nia]]].
  unfold _simulate_trajectory. rewrite H. cbn [sim_result]. rewrite Ht.
  assert ((1 <? length (before ++ [(px, py)]))%nat = true) as ->.
  { apply Nat.ltb_lt. rewrite length_app. cbn [length]. lia. }
  reflexivity.
Qed.

Lemma high_loop :
  sim_loop point_cap high_area near_target (sim_init high_origin (PI / 2))
  = Some (high_state 2, CloseToTarget).
Proof.
  rewrite high_init. change point_cap with (S (S 998)).
  rewrite (sim_loop_continue _ _ _ _ (high_state 1)).
  - apply sim_loop_break; unfold high_area, near_target, high_state;
      [sim_cond_eval|sim_body_eval].
  - unfold high_area, high_state. sim_cond_eval.
  - unfold high_area, near_target, high_state. sim_body_eval.
Qed.

Lemma close_exit_point_witness :
  exists (before : list (Z * Z)) (px py : Z),
    _simulate_trajectory high_origin (PI / 2) high_area near_target
      = Some (before ++ [(px, py)]) /\
    (Z.abs (px - x near_target) <= radius near_target)%Z /\
    (Z.abs (py - y near_target) <= radius near_target)%Z /\
    ((px - x near_target) ^ 2 + (py - y near_target) ^ 2
     <= 2 * (radius near_target * radius near_target))%Z.
Proof.
  exact (close_exit_point high_origin (PI / 2) high_area near_target _
           high_loop).
Defined.

(** ** The simulator: a shot straight up *)

(** A property of the state that every run of the body keeps holds when
    the loop ends. *)
Lemma sim_loop_invariant ga target (I : Sim -> Prop) :
  (forall (s s' : Sim) (o : option Exit),
     I s -> sim_cond ga s = true -> sim_body ga target s = (s', o) -> I s') ->
  forall (fuel : nat) (s s' : Sim) (e : Exit),
    sim_loop fuel ga target s = Some (s', e) -> I s -> I s'.
Proof.
  intros Hstep.
  induction fuel as [|fuel IH]; intros s s' e; cbn [sim_loop];
    destruct (sim_cond ga s) eqn:Hc; try discriminate;
    try (intros [= <- <-]; tauto).
  destruct (sim_body ga target s) as [s1 o] eqn:Hb. intros H Hs.
  pose proof (Hstep _ _ _ Hs Hc Hb) as H1.
  destruct o as [e1|].
  - now injection H as <- _.
  - exact (IH _ _ _ H H1).
Qed.

Lemma vertical_step ga target (sx : Z) (s s' : Sim) (o : option Exit) :
  (x_min ga < sx < x_max ga)%Z ->
  pos_x s = IZR sx /\ vel_x s = 0 /\ bounces s = 0%Z /\
  Forall (fun p => fst p = sx) (trajectory s) ->
  sim_body ga target s = (s', o) ->
  pos_x s' = IZR sx /\ vel_x s' = 0 /\ bounces s' = 0%Z /\
  Forall (fun p => fst p = sx) (trajectory s').
Proof.
  destruct ga as [[[xm ym] width] height]. unfold x_min, x_max, sim_body.
  intros [H1 H2] (Hx & Hv & Hb & Ht). apply IZR_lt in H1, H2.
  rewrite Hx, Hv, Hb, Rmult_0_l, Rplus_0_r.
  rewrite (proj2 (Rleb_false _ _) H1), (proj2 (Rleb_false _ _) H2).
  cbn [orb]. intros H.
  destruct (Rleb (IZR (ym + height)) _) in H.
  - injection H as <- _. now cbn.
  - assert (Forall (fun p : Z * Z => fst p = sx)
              (trajectory s ++ [(int (IZR sx), int (pos_y s + vel_y s * dt))]))
      as Ht'.
    { apply Forall_app. split; [exact Ht|].
      constructor; [apply int_IZR|constructor]. }
    destruct (_ && _) in H; [|destruct (point_cap <? _)%nat in H];
      injection H as <- _; now cbn.
Qed.

(** X8.  A shot straight up from strictly between the walls never bounces:
    every point of its trajectory is in the column of the launch point. *)
Theorem vertical_shot_column (sx sy : Z) (ga : Z * Z * Z * Z)
  (target : Bubble) (traj : list (Z * Z)) :
  (x_min ga < sx < x_max ga)%Z ->
  _simulate_trajectory (sx, sy) 0 ga target = Some traj ->
  Forall (fun p => fst p = sx) traj.
Proof.
  intros Hw H. apply simulate_some in H. destruct H as (s & e & H & <- & _).
  apply (sim_loop_invariant ga target
           (fun s => pos_x s = IZR sx /\ vel_x s = 0 /\ bounces s = 0%Z /\
                     Forall (fun p => fst p = sx) (trajectory s)))
    in H.
  - tauto.
  - intros s0 s1 o Hi _ Hb. exact (vertical_step _ _ _ _ _ _ Hw Hi Hb).
  - cbn [sim_init pos_x vel_x bounces trajectory].
    rewrite sin_0, Rmult_0_r.
    repeat split. constructor; [reflexivity|constructor].
Qed.

Lemma vertical_shot_column_witness :
  Forall (fun p => fst p = 400%Z) [(400, 600); (400, 592)]%Z.
Proof.
  refine (vertical_shot_column 400 600 wall_area step_target _ _ floor_run).
  unfold x_min, x_max, wall_area. lia.
Defined.

(** ** The sweep of bounced shots *)

Lemma fold_left_app_flat_map {A B : Type} (step : list B -> A -> list B)
  (g : A -> list B) :
  (forall acc a, step acc a = acc ++ g a) ->
  forall (l : list A) (acc : list B),
    fold_left step l acc = acc ++ flat_map g l.
Proof.
  intros Hstep. induction l as [|a l IH]; intros acc.
  - cbn. now rewrite app_nil_r.
  - rewrite fold_left_cons, IH, Hstep, flat_map_cons'. now rewrite app_assoc.
Qed.

(** The sweep collects, angle by angle in the order of the sweep, the
    shots whose trajectory hits the target. *)
Lemma bounced_shots_flat_map (gs : GameState) (target : Bubble) :
  _calculate_bounced_shots gs target =
  flat_map (sweep_shot gs target) (range (-80) 81 5).
Proof.
  unfold _calculate_bounced_shots.
  rewrite (fold_left_app_flat_map _ (sweep_shot gs target)); [reflexivity|].
  intros acc d. unfold sweep_shot. cbv zeta.
  destruct (_simulate_trajectory _ _ _ _) as [traj|];
    [|now rewrite app_nil_r].
  destruct (_ && _); [reflexivity|now rewrite app_nil_r].
Qed.

Lemma flat_map_length_le {A B : Type} (g : A -> list B) (l : list A) :
  (forall a, length (g a) <= 1)%nat ->
  (length (flat_map g l) <= length l)%nat.
Proof.
  intros Hg. induction l as [|a l IH]; [apply Nat.le_refl|].
  rewrite flat_map_cons', length_app. cbn [length]. specialize (Hg a). lia.
Qed.


(** X10.  From a shooter on or above the ceiling of the play area no
    bounced shot is found at any target; when in addition no bubble is
    strictly above the shooter the planner returns [None]. *)
Theorem no_shot_from_ceiling (gs : GameState) :
  (snd (shooter_position gs) <= y_min (game_area gs))%Z ->
  (forall target : Bubble, _calculate_bounced_shots gs target = []) /\
  ((forall b, In b (bubbles gs) -> (snd (shooter_position gs) <= y b)%Z) ->
   calculate_best_shot gs = None).
Proof.
  intros Hc.
  assert (forall target, _calculate_bounced_shots gs target = []) as Hb.
  { intros target. rewrite bounced_shots_flat_map.
    induction (range (-80) 81 5) as [|d l IH]; [reflexivity|].
    rewrite flat_map_cons', IH, app_nil_r. unfold sweep_shot. cbv zeta.
    destruct (shooter_position gs) as [sx sy]. cbn [snd] in Hc.
    rewrite (proj2 (simulate_none_iff sx sy _ _ target)); [reflexivity|].
    left. now apply IZR_le. }
  split; [exact Hb|]. intros Hy.
  apply best_shot_none. intros c Hin.
  rewrite (proj2 (candidates_nil gs)) in Hin; [destruct Hin|].
  intros b Hin'. split; [|apply Hb].
  destruct (shooter_position gs) as [sx sy] eqn:E.
  apply direct_shot_not_above. apply (Hy b Hin').
Qed.

Lemma no_shot_from_ceiling_witness :
  calculate_best_shot ceiling_state = None.
Proof.
  refine (proj2 (no_shot_from_ceiling ceiling_state _) _).
  - cbn. lia.
  - intros b [<-|[]]. cbn. lia.
Defined.

(** ** Chain potential *)

Lemma Bubble_eqb_sym (a b : Bubble) : Bubble_eqb a b = Bubble_eqb b a.
Proof.
  destruct (Bubble_eqb a b) eqn:E, (Bubble_eqb b a) eqn:E'; try reflexivity.
  - apply Bubble_eqb_eq in E. subst. now rewrite Bubble_eqb_refl in E'.
  - apply Bubble_eqb_eq in E'. subst. now rewrite Bubble_eqb_refl in E.
Qed.

Lemma chain_neighbourb_sym (a b : Bubble) :
  chain_neighbourb a b = chain_neighbourb b a.
Proof.
  unfold chain_neighbourb. rewrite (Bubble_eqb_sym b a).
  rewrite (Z.add_comm (radius a) (radius b)).
  replace ((x b - x a) ^ 2 + (y b - y a) ^ 2)%Z
    with ((x a - x b) ^ 2 + (y a - y b) ^ 2)%Z by ring.
  reflexivity.
Qed.

Lemma filter_length_perm {A : Type} (f : A -> bool) (l l' : list A) :
  Permutation l l' -> length (filter f l) = length (filter f l').
Proof.
  induction 1 as [|a l l' _ IH|a b l|l l' l'' _ IH1 _ IH2]; cbn.
  - reflexivity.
  - destruct (f a); cbn; now rewrite IH.
  - destruct (f a), (f b); reflexivity.
  - now rewrite IH1.
Qed.

Lemma filter_length_lt {A : Type} (f : A -> bool) (a : A) (l : list A) :
  In a l -> f a = false -> (length (filter f l) < length l)%nat.
Proof.
  induction l as [|b l IH]; [intros []|]. intros [->|Hin] Ha; cbn.
  - rewrite Ha. pose proof (filter_length_le f l). lia.
  - specialize (IH Hin Ha). destruct (f b); cbn; lia.
Qed.

(** X11.  The chain potential counts bubbles of the list: it is not
    negative and at most the length of the list, below it when the target
    is in the list; it does not depend on the order of the list; and the
    test is symmetric: a bubble counts for a target exactly when the
    target counts for the bubble. *)
Theorem chain_potential_bounds (target : Bubble) (all_bubbles : list Bubble) :
  (0 <= _calculate_chain_potential target all_bubbles
     <= Z.of_nat (length all_bubbles))%Z /\
  (In target all_bubbles ->
   (_calculate_chain_potential target all_bubbles
    < Z.of_nat (length all_bubbles))%Z) /\
  (forall shuffled : list Bubble,
     Permutation all_bubbles shuffled ->
     _calculate_chain_potential target shuffled =
     _calculate_chain_potential target all_bubbles) /\
  (forall b : Bubble,
     _calculate_chain_potential target [b] =
     _calculate_chain_potential b [target]).
Proof.
  split; [|split; [|split]].
  - rewrite chain_potential_count.
    pose proof (filter_length_le (chain_neighbourb target) all_bubbles). lia.
  - intros Hin. rewrite chain_potential_count.
    pose proof (filter_length_lt _ _ _ Hin (chain_neighbourb_self target)).
    lia.
  - intros shuffled Hp. rewrite !chain_potential_count.
    now rewrite (filter_length_perm _ _ _ Hp).
  - intros b. rewrite !chain_potential_count. cbn [filter].
    rewrite (chain_neighbourb_sym target b).
    now destruct (chain_neighbourb b target).
Qed.

(** ** The score *)

(** X12.  The score of a bubble of the board is at least the hit term plus
    the bonus of a direct shot; with the bubble at a [y] that is not
    negative it is at most that plus 20 plus 5 for every other bubble of
    the board. With between 1 and 9 hits left, as the detector reports
    them, the score is at least 10. *)
Theorem evaluate_shot_bounds (target : Bubble) (all_bubbles : list Bubble)
  (direct : bool) :
  In target all_bubbles ->
  let base := IZR (10 - hit_count target) * 10 + (if direct then 15 else 0) in
  base <= _evaluate_shot target all_bubbles direct /\
  ((0 <= y target)%Z ->
   _evaluate_shot target all_bubbles direct
   <= base + 20 + 5 * (INR (length all_bubbles) - 1)) /\
  ((1 <= hit_count target <= 9)%Z ->
   10 <= _evaluate_shot target all_bubbles direct).
Proof.
  intros Hin base. subst base.
  assert (all_bubbles <> []) as Hne by (intros ->; destruct Hin).
  pose proof (proj1 (max_y_of_spec target all_bubbles Hne) target Hin) as Hy.
  rewrite evaluate_shot_sum.
  assert (0 <= height_factor target all_bubbles /\
          ((0 <= y target)%Z -> height_factor target all_bubbles <= 1))
    as [Hf0 Hf1].
  { unfold height_factor.
    destruct (0 <? max_y_of target all_bubbles)%Z eqn:E; [|split; intros; lra].
    apply Z.ltb_lt, IZR_lt in E.
    pose proof (Rinv_0_lt_compat _ E) as Hi.
    rewrite minus_IZR. apply IZR_le in Hy. unfold Rdiv. split.
    - apply Rmult_le_pos; lra.
    - intros H0. apply IZR_le in H0.
      replace 1 with (IZR (max_y_of target all_bubbles)
                      * / IZR (max_y_of target all_bubbles)) by (field; lra).
      apply Rmult_le_compat_r; lra. }
  assert (0 <= IZR (_calculate_chain_potential target all_bubbles)
          <= INR (length all_bubbles) - 1) as [Hc0 Hc1].
  { rewrite chain_potential_count, INR_IZR_INZ.
    pose proof (filter_length_lt _ _ _ Hin (chain_neighbourb_self target)) as Hl.
    split.
    - apply IZR_le. lia.
    - rewrite <- (minus_IZR _ 1). apply IZR_le. lia. }
  split; [destruct direct; lra|]. split.
  - intros H0. specialize (Hf1 H0). destruct direct; lra.
  - intros [H1 H9].
    assert (1 <= 10 - hit_count target)%Z as Hh by lia. apply IZR_le in Hh.
    destruct direct; lra.
Qed.

Lemma evaluate_shot_bounds_witness :
  10 <= _evaluate_shot test_first test_bubbles true.
Proof.
  refine (proj2 (proj2 (evaluate_shot_bounds test_first test_bubbles true _))
            _).
  - now left.
  - cbn. lia.
Defined.

(** ** The planner *)

Lemma height_factor_nonneg (target : Bubble) (l : list Bubble) :
  In target l -> 0 <= height_factor target l.
Proof.
  intros Hin.
  assert (l <> []) as Hne by (intros ->; destruct Hin).
  pose proof (proj1 (max_y_of_spec target l Hne) target Hin) as Hy.
  unfold height_factor.
  destruct (0 <? max_y_of target l)%Z eqn:E; [|lra].
  apply Z.ltb_lt, IZR_lt in E. pose proof (Rinv_0_lt_compat _ E).
  rewrite minus_IZR. apply IZR_le in Hy. unfold Rdiv.
  apply Rmult_le_pos; lra.
Qed.

Lemma chain_potential_nonneg (target : Bubble) (l : list Bubble) :
  0 <= IZR (_calculate_chain_potential target l).
Proof. rewrite chain_potential_count. apply IZR_le. lia. Qed.

Lemma candidate_direct (gs : GameState) (b : Bubble) (d : R) :
  In b (bubbles gs) ->
  _calculate_direct_shot (shooter_position gs) b = Some d ->
  In (d, b, _evaluate_shot b (bubbles gs) true) (candidates gs).
Proof.
  intros Hin Hd. apply candidates_spec. exists b. split; [exact Hin|].
  apply shots_at_spec. left. cbn [fst]. split; [exact Hd|reflexivity].
Qed.

Lemma open_state_best_shot : calculate_best_shot open_state = Some (0, lone).
Proof.
  rewrite best_shot_fold, (candidates_single open_state lone eq_refl).
  unfold shots_at.
  change (bubbles open_state) with [lone].
  change (shooter_position open_state) with (400, 500)%Z.
  rewrite (direct_shot_vertical 400 500 lone) by (simpl; lia || reflexivity).
  assert (_evaluate_shot lone [lone] true = 85) as -> by score_eval.
  assert (_evaluate_shot lone [lone] false = 70) as -> by score_eval.
  generalize (_calculate_bounced_shots open_state lone) as shots.
  intros shots.
  change ([(0, lone, 85)] ++ map (fun shot => (fst shot, lone, 70)) shots)
    with ((0, lone, 85) :: map (fun shot : R * nat => (fst shot, lone, 70)) shots).
  rewrite fold_left_cons.
  assert (keep_shot (None, -1) (0, lone, 85) = (Some (0, lone), 85)) as ->.
  { unfold keep_shot, keep_better. cbn [fst snd].
    now rewrite (proj2 (Rltb_true _ _)) by lra. }
  rewrite keep_shot_unchanged; [reflexivity|].
  intros c Hc. apply in_map_iff in Hc. destruct Hc as (s & <- & _).
  cbn [snd]. lra.
Qed.

Lemma open_state_direct_shot :
  _calculate_direct_shot (shooter_position open_state) lone = Some 0.
Proof. apply direct_shot_vertical; [simpl; lia|reflexivity]. Qed.

(** X13.  At the bubble it chooses the planner prefers the direct shot:
    when the target returned has a direct shot, the angle returned is that
    of the direct shot, never that of a bounced one. *)
Theorem best_shot_prefers_direct (gs : GameState) (a d : R) (b : Bubble) :
  calculate_best_shot gs = Some (a, b) ->
  _calculate_direct_shot (shooter_position gs) b = Some d ->
  a = d.
Proof.
  intros H Hd. apply best_shot_some in H.
  destruct H as (sc & l1 & l2 & Hl & _ & H1 & H2).
  assert (In (a, b, sc) (candidates gs)) as Hin
    by (rewrite Hl; apply in_elt).
  apply candidates_spec in Hin. destruct Hin as (b' & Hb' & Hin).
  apply shots_at_spec in Hin. cbn [fst] in Hin.
  destruct Hin as [[Ha [= <- _]]|(n & _ & [= <- Hsc])].
  - rewrite Ha in Hd. now injection Hd.
  - pose proof (candidate_direct gs b d Hb' Hd) as Hc.
    rewrite Hl in Hc. apply in_app_or in Hc.
    pose proof (evaluate_shot_sum b (bubbles gs) true) as Et.
    pose proof (evaluate_shot_sum b (bubbles gs) false) as Ef.
    destruct Hc as [Hc|[Hc|Hc]].
    + specialize (H1 _ Hc). cbn [snd] in H1. lra.
    + now injection Hc.
    + specialize (H2 _ Hc). cbn [snd] in H2. lra.
Qed.

Lemma best_shot_prefers_direct_witness :
  calculate_best_shot open_state = Some (0, lone) /\
  _calculate_direct_shot (shooter_position open_state) lone = Some 0 /\
  0 = 0.
Proof.
  split; [exact open_state_best_shot|]. split; [exact open_state_direct_shot|].
  exact (best_shot_prefers_direct open_state 0 0 lone open_state_best_shot
           open_state_direct_shot).
Defined.

(** X14.  A bubble strictly above the shooter with at most eleven hits
    left gives the planner a shot: it does not return [None]. *)
Theorem best_shot_found (gs : GameState) (b : Bubble) :
  In b (bubbles gs) ->
  (y b < snd (shooter_position gs))%Z ->
  (hit_count b <= 11)%Z ->
  exists (a : R) (target : Bubble),
    calculate_best_shot gs = Some (a, target) /\ In target (bubbles gs).
Proof.
  intros Hin Hy Hh.
  destruct (calculate_best_shot gs) as [[a t]|] eqn:E.
  - exists a, t. split; [reflexivity|].
    exact (proj1 (best_shot_sound gs a t E)).
  - exfalso. pose proof (proj1 (best_shot_none gs) E) as Hn.
    destruct (shooter_position gs) as [sx sy] eqn:Es. cbn [snd] in Hy.
    pose proof (direct_shot_above sx sy b Hy) as Hd. rewrite <- Es in Hd.
    specialize (Hn _ (candidate_direct gs b _ Hin Hd)). cbn [snd] in Hn.
    rewrite evaluate_shot_sum in Hn.
    pose proof (height_factor_nonneg b (bubbles gs) Hin).
    pose proof (chain_potential_nonneg b (bubbles gs)).
    assert (-1 <= 10 - hit_count b)%Z as H10 by lia. apply IZR_le in H10.
    lra.
Qed.

Lemma best_shot_found_witness :
  exists (a : R) (target : Bubble),
    calculate_best_shot test_state = Some (a, target) /\
    In target (bubbles test_state).
Proof.
  refine (best_shot_found test_state test_first _ _ _).
  - now left.
  - cbn. lia.
  - cbn. lia.
Defined.

Lemma aim_point_above (sx sy : Z) (angle : R) (distance : Z) :
  (0 <= distance)%Z -> - (PI / 2) <= angle <= PI / 2 ->
  (snd (get_mouse_position_for_angle (sx, sy) angle distance) <= sy)%Z.
Proof.
  intros Hd Ha. apply IZR_le in Hd.
  destruct (sin_cos_quarter angle) as (_ & _ & Hc & _). specialize (Hc Ha).
  unfold get_mouse_position_for_angle. cbn [snd]. apply int_upper. nra.
Qed.

(** X15.  The planner and the aim point: the point at which a shot of the
    planner is aimed, at any distance that is not negative, is not below
    the shooter, and not further from it than the distance on either axis. *)
Theorem best_shot_aim_point (gs : GameState) (a : R) (b : Bubble)
  (distance : Z) :
  calculate_best_shot gs = Some (a, b) ->
  (0 <= distance)%Z ->
  let p := get_mouse_position_for_angle (shooter_position gs) a distance in
  (snd p <= snd (shooter_position gs))%Z /\
  (Z.abs (fst p - fst (shooter_position gs)) <= distance)%Z /\
  (Z.abs (snd p - snd (shooter_position gs)) <= distance)%Z.
Proof.
  intros H Hd p. subst p. apply best_shot_sound in H. destruct H as [_ Ha].
  destruct (shooter_position gs) as [sx sy]. cbn [fst snd].
  split; [now apply aim_point_above|].
  pose proof Hd as Hd'. apply IZR_le in Hd'.
  destruct (sin_cos_quarter a) as (Hs & Hc & _).
  unfold get_mouse_position_for_angle. cbn [fst snd].
  assert (sx - distance <= int (IZR sx + IZR distance * sin a))%Z
    by (apply int_lower; rewrite minus_IZR; nra).
  assert (int (IZR sx + IZR distance * sin a) <= sx + distance)%Z
    by (apply int_upper; rewrite plus_IZR; nra).
  assert (sy - distance <= int (IZR sy - IZR distance * cos a))%Z
    by (apply int_lower; rewrite minus_IZR; nra).
  assert (int (IZR sy - IZR distance * cos a) <= sy + distance)%Z
    by (apply int_upper; rewrite plus_IZR; nra).
  lia.
Qed.

Lemma best_shot_aim_point_witness :
  let p := get_mouse_position_for_angle (shooter_position open_state) 0 200 in
  (snd p <= snd (shooter_position open_state))%Z /\
  (Z.abs (fst p - fst (shooter_position open_state)) <= 200)%Z /\
  (Z.abs (snd p - snd (shooter_position open_state)) <= 200)%Z.
Proof.
  refine (best_shot_aim_point open_state 0 lone 200 open_state_best_shot _).
  lia.
Defined.

(** * The detector *)

Lemma int_mono (a b : R) : a <= b -> (int a <= int b)%Z.
Proof.
  intros H. unfold int.
  destruct (Rle_dec 0 a), (Rle_dec 0 b); try lra.
  - now apply Zfloor_le.
  - pose proof (Zceil_bound a). pose proof (Zfloor_bound b).
    assert (Zceil a < 1)%Z by (apply lt_IZR; lra).
    assert (0 <= Zfloor b)%Z by (now apply Zfloor_lub).
    lia.
  - unfold Zceil. assert (Zfloor (- b) <= Zfloor (- a))%Z; [|lia].
    apply Zfloor_le. lra.
Qed.

Lemma detect_hit_count_bounds (region_size white total : Z) :
  (1 <= _detect_hit_count region_size white total <= 9)%Z.
Proof.
  unfold _detect_hit_count.
  repeat match goal with
    | |- context [if ?c then _ else _] => destruct c
    end; lia.
Qed.

(** X16.  The hit count the detector reads off a bubble is between 1 and 9
    whatever the counts are, and with the same number of pixels it does
    not fall when more of them are white. *)
Theorem detect_hit_count_range (region_size white total : Z) :
  (1 <= _detect_hit_count region_size white total <= 9)%Z /\
  (forall white' : Z,
     (0 < total)%Z -> (white <= white')%Z ->
     (_detect_hit_count region_size white total
      <= _detect_hit_count region_size white' total)%Z).
Proof.
  split; [apply detect_hit_count_bounds|].
  intros white' Ht Hw. unfold _detect_hit_count.
  destruct (region_size =? 0)%Z; [lia|].
  destruct (total =? 0)%Z eqn:E; [lia|]. cbv zeta.
  assert (IZR white / IZR total <= IZR white' / IZR total) as Hq.
  { apply IZR_lt in Ht. apply IZR_le in Hw. unfold Rdiv.
    apply Rmult_le_compat_r; [|exact Hw].
    left. now apply Rinv_0_lt_compat. }
  set (r := IZR white / IZR total) in *.
  set (r' := IZR white' / IZR total) in *.
  assert (forall v, 0.3 <= v -> (3 <= Z.max 1 (Z.min 9 (int (v * 10))))%Z)
    as H3.
  { intros v Hv. assert (3 <= int (v * 10))%Z by (apply int_lower; lra). lia. }
  destruct (Rltb r 0.1) eqn:E1, (Rltb r' 0.1) eqn:E1';
    try apply Rltb_true in E1; try apply Rltb_true in E1';
    try apply Rltb_false in E1; try apply Rltb_false in E1'; try lra;
    try lia;
    destruct (Rltb r 0.2) eqn:E2, (Rltb r' 0.2) eqn:E2';
    try apply Rltb_true in E2; try apply Rltb_true in E2';
    try apply Rltb_false in E2; try apply Rltb_false in E2'; try lra;
    try lia;
    destruct (Rltb r 0.3) eqn:E3, (Rltb r' 0.3) eqn:E3';
    try apply Rltb_true in E3; try apply Rltb_true in E3';
    try apply Rltb_false in E3; try apply Rltb_false in E3'; try lra;
    try lia;
    try (specialize (H3 r' ltac:(lra)); lia).
  assert (int (r * 10) <= int (r' * 10))%Z by (apply int_mono; lra). lia.
Qed.

(** X17.  The shooter the detector places in a play area (x, y, w, h),
    read from a region of the shape of that area, is on the vertical
    through the middle of the area and 50 above its floor; it is inside
    the play area exactly when the area is at least 50 high. *)
Theorem detect_shooter_in_area (area_x area_y w h : Z) :
  (0 <= w)%Z ->
  let shooter := _detect_shooter (h, w) area_x area_y in
  (in_area (area_x, area_y, w, h) shooter <-> (50 <= h)%Z) /\
  (0 <= w - 2 * (fst shooter - area_x) <= 1)%Z /\
  snd shooter = (y_max (area_x, area_y, w, h) - 50)%Z.
Proof.
  intros Hw. cbv zeta. unfold _detect_shooter, in_area, x_min, x_max, y_min, y_max.
  cbn [fst snd].
  pose proof (Z.div_mod w 2 ltac:(lia)) as Hd.
  pose proof (Z.mod_pos_bound w 2 ltac:(lia)) as Hm.
  repeat split; lia.
Qed.

Lemma detect_shooter_in_area_witness :
  in_area (0, 0, 800, 600)%Z (_detect_shooter (600, 800)%Z 0 0) <->
  (50 <= 600)%Z.
Proof.
  refine (proj1 (detect_shooter_in_area 0 0 800 600 _)). lia.
Defined.



Lemma detect_bubbles_flat_map (contours : list Contour)
  (offset_x offset_y : Z) :
  _detect_bubbles contours offset_x offset_y =
  flat_map (contour_bubbles offset_x offset_y) contours.
Proof.
  unfold _detect_bubbles.
  rewrite (fold_left_app_flat_map _ (contour_bubbles offset_x offset_y));
    [reflexivity|].
  intros acc c. unfold contour_bubbles. cbv zeta.
  destruct (Rltb (contour_area c) 100); [now rewrite app_nil_r|].
  destruct (_ && _); [|now rewrite app_nil_r].
  now destruct (mean_color c) as [[c1 c2] c3].
Qed.

Lemma contour_bubbles_spec (offset_x offset_y : Z) (c : Contour) (b : Bubble) :
  In b (contour_bubbles offset_x offset_y c) ->
  min_bubble_radius <= circle_radius c <= max_bubble_radius /\
  radius b = int (circle_radius c) /\
  hit_count b =
    _detect_hit_count (center_size c) (white_pixels c) (total_pixels c).
Proof.
  unfold contour_bubbles. cbv zeta.
  destruct (Rltb (contour_area c) 100); [intros []|].
  destruct (Rleb min_bubble_radius _) eqn:E1; [|intros []].
  destruct (Rleb _ max_bubble_radius) eqn:E2; [|intros []].
  apply Rleb_true in E1, E2. cbn [andb].
  destruct (mean_color c) as [[c1 c2] c3]. intros [<-|[]]. now repeat split.
Qed.

Lemma detect_bubbles_spec (contours : list Contour) (offset_x offset_y : Z)
  (b : Bubble) :
  In b (_detect_bubbles contours offset_x offset_y) ->
  (15 <= radius b <= 40)%Z /\ (1 <= hit_count b <= 9)%Z.
Proof.
  rewrite detect_bubbles_flat_map, in_flat_map. intros (c & _ & Hb).
  apply contour_bubbles_spec in Hb. destruct Hb as ([Hlo Hhi] & -> & ->).
  unfold min_bubble_radius, max_bubble_radius in *.
  split; [|apply detect_hit_count_bounds].
  split; [apply int_lower|apply int_upper]; lra.
Qed.

(** X19.  Every bubble the detector builds has a radius between 15 and 40
    and between 1 and 9 hits left, and there are at most as many bubbles
    as contours. *)
Theorem detected_bubbles_wellformed (contours : list Contour)
  (offset_x offset_y : Z) :
  (forall b : Bubble,
     In b (_detect_bubbles contours offset_x offset_y) ->
     (15 <= radius b <= 40)%Z /\ (1 <= hit_count b <= 9)%Z) /\
  (length (_detect_bubbles contours offset_x offset_y)
   <= length contours)%nat.
Proof.
  split; [apply detect_bubbles_spec|].
  rewrite detect_bubbles_flat_map. apply flat_map_length_le.
  intros c. unfold contour_bubbles. cbv zeta.
  destruct (Rltb (contour_area c) 100); [cbn; lia|].
  destruct (_ && _); [|cbn; lia].
  destruct (mean_color c) as [[c1 c2] c3]. cbn. lia.
Qed.

Lemma best_shot_none_small_hits (gs : GameState) :
  (forall b, In b (bubbles gs) -> (hit_count b <= 10)%Z) ->
  calculate_best_shot gs = None <-> no_viable_shot gs.
Proof.
  intros Hh. rewrite best_shot_none, <- candidates_nil. split.
  - intros H. destruct (candidates gs) as [|c l] eqn:E; [reflexivity|].
    exfalso.
    assert (In c (candidates gs)) as Hc by (rewrite E; apply in_eq).
    specialize (H c (in_eq _ _)).
    apply candidates_spec in Hc. destruct Hc as (b & Hb & Hc).
    apply shots_at_spec in Hc.
    pose proof (evaluate_shot_nonneg b (bubbles gs) true Hb (Hh b Hb)).
    pose proof (evaluate_shot_nonneg b (bubbles gs) false Hb (Hh b Hb)).
    destruct Hc as [[_ Hc]|(n & _ & Hc)]; rewrite Hc in H; cbn [snd] in H; lra.
  - intros -> c [].
Qed.

(** X20.  The detector and the planner: on a snapshot whose bubbles are
    those the detector builds, whatever the shooter, the projectiles and
    the play area, the planner returns [None] exactly when no bubble has a
    viable direct or bounced shot. *)
Theorem plan_on_detected_bubbles (contours : list Contour)
  (offset_x offset_y : Z) (shooter : Z * Z) (in_flight : list (Z * Z))
  (area : Z * Z * Z * Z) :
  let gs :=
    mkGameState (_detect_bubbles contours offset_x offset_y) shooter
      in_flight area in
  calculate_best_shot gs = None <-> no_viable_shot gs.
Proof.
  cbv zeta. apply best_shot_none_small_hits. cbn [bubbles]. intros b Hb.
  apply detect_bubbles_spec in Hb. lia.
Qed.

(** * The game loop *)

Lemma round_body_spec (round : Round) (l l' : Loop) (o : option Stop) :
  round_body round l = (l', o) ->
  round_count l' = (round_count l + 1)%Z /\
  (clicks l' = clicks l \/
   exists (gs : GameState) (a : R) (b : Bubble),
     round = Detected gs true /\
     calculate_best_shot gs = Some (a, b) /\
     clicks l' =
       clicks l ++ [get_mouse_position_for_angle (shooter_position gs) a 200]).
Proof.
  unfold round_body. destruct round as [| |gs clicked].
  - intros [= <- <-]. cbn. auto.
  - destruct (10 <? _)%Z; intros [= <- <-]; cbn; auto.
  - destruct (bubbles gs) as [|b0 bs]; [intros [= <- <-]; cbn; auto|].
    destruct (calculate_best_shot gs) as [[a b]|] eqn:E.
    + intros [= <- <-]. cbn [round_count clicks]. split; [reflexivity|].
      destruct clicked; [right|now left].
      exists gs, a, b. repeat split. exact E.
    + destruct (5 <? _)%Z; intros [= <- <-]; cbn; auto.
Qed.

Lemma round_body_counter (round : Round) (l l' : Loop) (o : option Stop) :
  round_body round l = (l', o) ->
  (0 <= consecutive_no_shots l <= 10)%Z ->
  (0 <= consecutive_no_shots l' <= 11)%Z /\
  (o = None -> (consecutive_no_shots l' <= 10)%Z).
Proof.
  unfold round_body. destruct round as [| |gs clicked].
  - intros [= <- <-] H. cbn [consecutive_no_shots]. split; [lia|intros _; lia].
  - destruct (Z.ltb_spec 10 (consecutive_no_shots l + 1)); intros [= <- <-] H';
      cbn [consecutive_no_shots]; (split; [lia|]);
      [discriminate|intros _; lia].
  - destruct (bubbles gs) as [|b0 bs].
    { intros [= <- <-] H. cbn [consecutive_no_shots].
      split; [lia|discriminate]. }
    destruct (calculate_best_shot gs) as [[a b]|].
    + intros [= <- <-] H. cbn [consecutive_no_shots].
      split; [lia|intros _; lia].
    + destruct (Z.ltb_spec 5 (consecutive_no_shots l + 1));
        intros [= <- <-] H'; cbn [consecutive_no_shots]; (split; [lia|]);
        [discriminate|intros _; lia].
Qed.

Lemma round_body_stop (round : Round) (l l' : Loop) :
  round_body round l <> (l', Some RoundsDone).
Proof.
  unfold round_body. destruct round as [| |gs clicked].
  - discriminate.
  - destruct (10 <? _)%Z; discriminate.
  - destruct (bubbles gs) as [|b0 bs]; [discriminate|].
    destruct (calculate_best_shot gs) as [[a b]|]; [discriminate|].
    destruct (5 <? _)%Z; discriminate.
Qed.

Lemma game_loop_inv (rounds : nat -> Round) (max_rounds : Z) (fuel : nat)
  (l : Loop) :
  (max_rounds - round_count l <= Z.of_nat fuel)%Z ->
  (0 <= round_count l)%Z ->
  (0 <= consecutive_no_shots l <= 10)%Z ->
  exists (l' : Loop) (stop : Stop),
    game_loop fuel rounds max_rounds l = Some (l', stop) /\
    (round_count l <= round_count l' <= Z.max (round_count l) max_rounds)%Z /\
    (stop = RoundsDone -> round_count l' = Z.max (round_count l) max_rounds) /\
    (0 <= consecutive_no_shots l' <= 11)%Z /\
    (Z.of_nat (length (clicks l')) - Z.of_nat (length (clicks l))
     <= round_count l' - round_count l)%Z /\
    (forall p, In p (clicks l') ->
       In p (clicks l) \/ planned_click rounds (round_count l') p).
Proof.
  revert l. induction fuel as [|fuel IH]; intros l Hf H0 Hc.
  - cbn [game_loop].
    destruct (Z.ltb_spec (round_count l) max_rounds) as [Hlt|Hge]; [lia|].
    exists l, RoundsDone. repeat split; try lia. intros p Hp. now left.
  - cbn [game_loop].
    destruct (Z.ltb_spec (round_count l) max_rounds) as [Hlt|Hge].
    + destruct (round_body (rounds (Z.to_nat (round_count l))) l)
        as [l1 o] eqn:E.
      destruct (round_body_spec _ _ _ _ E) as [Hr Hk].
      destruct (round_body_counter _ _ _ _ E Hc) as [Hc1 Hc2].
      assert ((Z.of_nat (length (clicks l1)) - Z.of_nat (length (clicks l))
               <= 1)%Z /\
              forall p, In p (clicks l1) ->
                In p (clicks l) \/ planned_click rounds (round_count l1) p)
        as [Hn Hp].
      { destruct Hk as [->|(gs & a & b & Hg & Hb & ->)].
        - split; [lia|]. intros p Hp. now left.
        - split; [rewrite length_app; cbn [length]; lia|].
          intros p Hp. apply in_app_or in Hp.
          destruct Hp as [Hp|[<-|[]]]; [now left|right].
          exists (Z.to_nat (round_count l)), gs, a, b.
          repeat split; [lia|exact Hg|exact Hb]. }
      destruct o as [stop|].
      * exists l1, stop. repeat split; try lia; try exact Hp.
        intros ->. now apply round_body_stop in E.
      * destruct (IH l1) as (l' & stop & Hl & Hr' & Hs & Hc' & Hn' & Hp');
          [lia|lia|split; [lia|now apply Hc2]|].
        exists l', stop. split; [exact Hl|]. repeat split; try lia.
        -- intros Hd. specialize (Hs Hd). lia.
        -- intros p Hin. destruct (Hp' p Hin) as [Hin1|Hin1]; [|now right].
           destruct (Hp p Hin1) as [Hin0|(k & gs & a & b & Hk' & Hrest)];
             [now left|right].
           exists k, gs, a, b. split; [lia|exact Hrest].
    + exists l, RoundsDone. repeat split; try lia. intros p Hp. now left.
Qed.




(** X21.  The game loop stops, after at most [max_rounds] rounds: whatever
    the rounds bring (an exception, no game state, a game state with or
    without a click), it counts between 0 and [max_rounds] rounds, exactly
    [max_rounds] (none if that is negative) when it stops because the
    rounds are used up; it has clicked at most once a round; and its
    counter of rounds without a shot ends between 0 and 11. *)
Theorem game_loop_stops (rounds : nat -> Round) (max_rounds : Z) :
  exists (l : Loop) (stop : Stop),
    play_game_loop rounds max_rounds = Some (l, stop) /\
    (0 <= round_count l <= Z.max 0 max_rounds)%Z /\
    (stop = RoundsDone -> round_count l = Z.max 0 max_rounds) /\
    (Z.of_nat (length (clicks l)) <= round_count l)%Z /\
    (0 <= consecutive_no_shots l <= 11)%Z.
Proof.
  destruct (game_loop_inv rounds max_rounds (Z.to_nat max_rounds)
              (mkLoop 0 0 []))
    as (l & stop & Hl & Hr & Hs & Hc & Hn & _);
    cbn [round_count consecutive_no_shots clicks length] in *; try lia.
  exists l, stop. repeat split; try lia; assumption.
Qed.


